(** * Record state reconciliation of the [useRecord] hook

    Shallow embedding of [src/frontend/hooks/use-record.tsx] (admin-bro):
    the record snapshot held by the hook, the change handler
    [handleChange], the submission handler [handleSubmit] with its
    progress callback, and the path addressing (flatten / unflatten) the
    change handler goes through.

    Conventions of the embedding.
    - A JavaScript value that may be [undefined] is an [option].
    - [params] and the nested form of [params] are objects whose keys are
      walked in order, and the walk order decides which of two colliding
      paths wins; they are ordered association lists ([Obj]). An
      assignment [o[key] = value] of the hook ([js_assign]) puts a new
      key where JavaScript puts it: array indices first, in ascending
      order, then the other keys in the order they were written.
    - [errors] and [populated] are only looked up, inserted into, deleted
      from and spread; they are finite maps ([gmap]) of the object's own
      properties. The objects the hook creates inherit from
      [Object.prototype]: [key in o] ([js_in]) also holds for the names
      found there, and an assignment to ["__proto__"] that is not an own
      property goes to the inherited setter and stores nothing.
    - [populated] is compared by reference by callers, so it is a
      reference: the address of the object together with its entries.
    - Numbers stored in a record are integers. The byte counts of a
      progress event are naturals, and the arithmetic on them is the
      arithmetic of JavaScript numbers: every operation is rounded to the
      nearest double ([binary64]). *)

From stdpp Require Import gmap strings list fin_maps sorting.
From Stdlib Require Import ZArith NArith Ascii String.

#[local] Set Warnings "-register-all".
#[local] Open Scope string_scope.
#[local] Open Scope list_scope.

(** * Part I: the embedding *)

(** ** Scalars *)

Inductive scalar : Type :=
  | SUndefined
  | SNull
  | SBool (b : bool)
  | SNum (z : Z)
  | SStr (s : string).

(** JavaScript truthiness of a scalar: [undefined], [null], [false], [0]
    and the empty string are falsy. *)
Definition scalar_truthy (v : scalar) : bool :=
  match v with
  | SUndefined | SNull => false
  | SBool b => b
  | SNum z => negb (z =? 0)%Z
  | SStr s => negb (String.eqb s "")
  end.

(** ** Ordered objects

    A JavaScript object used as a string-keyed dictionary whose key order
    is observable: [set] overwrites in place or appends, [delete] removes
    the key, [get] reads it. *)
Module Obj.

Definition t (A : Type) : Type := list (string * A).

Fixpoint get {A} (k : string) (o : t A) : option A :=
  match o with
  | [] => None
  | (k', v) :: o' => if decide (k = k') then Some v else get k o'
  end.

Fixpoint set {A} (k : string) (v : A) (o : t A) : t A :=
  match o with
  | [] => [(k, v)]
  | (k', v') :: o' =>
      if decide (k = k') then (k, v) :: o' else (k', v') :: set k v o'
  end.

Fixpoint delete {A} (k : string) (o : t A) : t A :=
  match o with
  | [] => []
  | (k', v') :: o' =>
      if decide (k = k') then delete k o' else (k', v') :: delete k o'
  end.

Definition keys {A} (o : t A) : list string := o.*1.

(** Two objects with the same own properties, whatever the order of
    their keys. *)
Definition same_props {A} (o1 o2 : t A) : Prop :=
  ∀ k, get k o1 = get k o2.

End Obj.

(** ** Path strings

    A path is a sequence of segments joined by the delimiter ["."]. *)

Definition delimiter : ascii := "."%char.

Fixpoint dot_free (s : string) : bool :=
  match s with
  | EmptyString => true
  | String c s' => negb (Ascii.eqb c delimiter) && dot_free s'
  end.

(** [split_path s] cuts [s] at every delimiter, as [s.split('.')] does: a
    string with [n] delimiters has [n + 1] segments. *)
Fixpoint split_path (s : string) : list string :=
  match s with
  | EmptyString => [EmptyString]
  | String c s' =>
      if Ascii.eqb c delimiter then EmptyString :: split_path s'
      else match split_path s' with
           | seg :: rest => String c seg :: rest
           | [] => [String c EmptyString]
           end
  end.

(** [join_path segs] is [segs.join('.')]. *)
Fixpoint join_path (segs : list string) : string :=
  match segs with
  | [] => EmptyString
  | [k] => k
  | k :: rest => k ++ String delimiter (join_path rest)
  end.

Definition is_digit (c : ascii) : bool :=
  (48 <=? nat_of_ascii c)%nat && (nat_of_ascii c <=? 57)%nat.

Fixpoint all_digits (s : string) : bool :=
  match s with
  | EmptyString => true
  | String c s' => is_digit c && all_digits s'
  end.

(** A numeric path segment: a non-empty string of decimal digits. *)
Definition is_index (s : string) : bool :=
  match s with
  | EmptyString => false
  | String _ _ => all_digits s
  end.

(** ** Properties of JavaScript objects *)

(** The names every object inherits from [Object.prototype]. *)
Definition object_prototype_names : list string :=
  ["constructor"; "__defineGetter__"; "__defineSetter__"; "hasOwnProperty";
   "__lookupGetter__"; "__lookupSetter__"; "isPrototypeOf";
   "propertyIsEnumerable"; "toString"; "valueOf"; "__proto__";
   "toLocaleString"].

Definition inherited (key : string) : bool :=
  bool_decide (key ∈ object_prototype_names).

(** [key in o] for an object [o] with the own properties [own] that
    inherits from [Object.prototype]. *)
Definition js_in {A} (key : string) (own : gmap string A) : bool :=
  bool_decide (is_Some (own !! key)) || inherited key.

(** [o[key] = value] on the own properties of such an object: an own
    property is overwritten; ["__proto__"], when it is not an own property,
    is the accessor of [Object.prototype], whose setter changes the
    prototype and creates no property; any other key becomes an own
    property. *)
Definition js_insert {A} (key : string) (value : A) (own : gmap string A)
  : gmap string A :=
  if bool_decide (key = "__proto__") && bool_decide (own !! key = None)
  then own
  else <[key := value]> own.

Definition digit_value (c : ascii) : N := (N_of_ascii c - 48)%N.

Fixpoint numeral_value (acc : N) (s : string) : N :=
  match s with
  | EmptyString => acc
  | String c s' => numeral_value (10 * acc + digit_value c) s'
  end.

Definition leading_zero (s : string) : bool :=
  match s with
  | String c (String _ _) => Ascii.eqb c "0"
  | _ => false
  end.

(** An array index: the canonical numeral of an integer below
    [2^32 - 1]. The own keys of an object are enumerated with the array
    indices first, in ascending order. *)
Definition array_index (s : string) : option N :=
  if is_index s && negb (leading_zero s) then
    let n := numeral_value 0 s in
    if (n <=? 4294967294)%N then Some n else None
  else None.

(** Where a new array index goes: before the first key that is a greater
    index or no index at all. *)
Fixpoint insert_index {A} (i : N) (k : string) (v : A) (o : Obj.t A)
  : Obj.t A :=
  match o with
  | [] => [(k, v)]
  | (k', v') :: o' =>
      match array_index k' with
      | Some j =>
          if (j <? i)%N then (k', v') :: insert_index i k v o'
          else (k, v) :: o
      | None => (k, v) :: o
      end
  end.

(** [o[key] = value] on an object whose key order is observable. *)
Definition js_assign {A} (k : string) (v : A) (o : Obj.t A) : Obj.t A :=
  match Obj.get k o with
  | Some _ => Obj.set k v o
  | None =>
      if decide (k = "__proto__") then o
      else match array_index k with
           | Some i => insert_index i k v o
           | None => o ++ [(k, v)]
           end
  end.

(** ** Nested structures *)

Inductive kind : Type := KObject | KArray.

(** A nested value: a scalar leaf, or an object or array with keyed
    children. The children of an array are keyed by their indices, as the
    own keys of a JavaScript array are. *)
Inductive nested : Type :=
  | Leaf (v : scalar)
  | Node (kd : kind) (children : list (string * nested)).

Definition nested_truthy (n : nested) : bool :=
  match n with
  | Leaf v => scalar_truthy v
  | Node _ _ => true
  end.

(** ** PathAddressing

    The hook calls [flat.flatten] and [flat.unflatten] of the [flat]
    package, which is not part of the sources. *)
Module PathAddressing.

(** Modelled from the spec: [flat.flatten] is missing; a flat mapping
    sends dotted path strings to scalar values, so every scalar leaf is
    written under the path that joins the keys leading to it with the
    delimiter, in the order the keys are met. *)
Fixpoint flatten_node (key : string) (n : nested) (out : Obj.t scalar)
  : Obj.t scalar :=
  match n with
  | Leaf v => Obj.set key v out
  | Node _ ch =>
      foldl (λ acc kc, flatten_node (key ++ String delimiter kc.1) kc.2 acc)
            out ch
  end.

(** Modelled from the spec: [flat.flatten] on the nested form of
    [params]; the keys of the root start the paths. *)
Definition toFlat (root : Obj.t nested) : Obj.t scalar :=
  foldl (λ acc kc, flatten_node kc.1 kc.2 acc) [] root.

(** Modelled from the spec: array indices are numeric path segments. *)
Definition kind_of (seg : string) : kind :=
  if is_index seg then KArray else KObject.

(** Modelled from the spec: part of the missing [flat.unflatten]; writes
    one leaf at a path given by its segments. A container that does not
    exist yet is created as an array when the next segment is numeric
    and as an object otherwise; a scalar that stands where a container
    is needed is left alone. *)
Fixpoint set_path (segs : list string) (v : scalar) (o : Obj.t nested)
  : Obj.t nested :=
  match segs with
  | [] => o
  | [k] => Obj.set k (Leaf v) o
  | k :: ((k2 :: _) as rest) =>
      match Obj.get k o with
      | None => Obj.set k (Node (kind_of k2) (set_path rest v [])) o
      | Some (Node kd sub) => Obj.set k (Node kd (set_path rest v sub)) o
      | Some (Leaf _) => o
      end
  end.

(** Modelled from the spec: [flat.unflatten] is missing; the nested
    form is built by writing the entries of the flat mapping one after
    the other, each at the path its key spells. *)
Definition toNested (flat : Obj.t scalar) : Obj.t nested :=
  foldl (λ acc pv, set_path (split_path pv.1) pv.2 acc) [] flat.

(** *** Well-formed nested structures

    The shapes on which flattening loses nothing: keys are unique within
    a container, the keys of an array are numeric segments, the keys of an
    object below the root are not numeric and do not contain the
    delimiter, and a container below the root is not empty (an empty
    container has no scalar leaf to be written under). *)

Definition key_ok (kd : kind) (k : string) : bool :=
  match kd with
  | KObject => dot_free k && negb (is_index k)
  | KArray => is_index k
  end.

Fixpoint wf_nested (n : nested) : bool :=
  match n with
  | Leaf _ => true
  | Node kd ch =>
      match ch with [] => false | _ :: _ => true end
      && bool_decide (NoDup ch.*1)
      && forallb (λ kc, key_ok kd kc.1 && wf_nested kc.2) ch
  end.

Definition wf_children (kd : kind) (ch : Obj.t nested) : bool :=
  bool_decide (NoDup ch.*1)
  && forallb (λ kc, key_ok kd kc.1 && wf_nested kc.2) ch.

(** The nested form of [params] itself is an object that is never
    created from a path: its keys only have to be unique and free of the
    delimiter, and it may be empty. *)
Definition wf_root (root : Obj.t nested) : bool :=
  bool_decide (NoDup root.*1)
  && forallb (λ kc, dot_free kc.1 && wf_nested kc.2) root.

(** Paths seen from one container up: below the key [k]. *)
Definition under (k : string) (L : list (list string * scalar))
  : list (list string * scalar) :=
  (λ pv, (k :: pv.1, pv.2)) <$> L.

(** The scalar leaves of a nested value with the segments that lead to
    them, in the order of the walk. *)
Fixpoint leaves (n : nested) : list (list string * scalar) :=
  match n with
  | Leaf v => [([], v)]
  | Node _ ch => flat_map (λ kc, under kc.1 (leaves kc.2)) ch
  end.

Definition leaves_children (ch : Obj.t nested) : list (list string * scalar) :=
  flat_map (λ kc, under kc.1 (leaves kc.2)) ch.

Definition render (pv : list string * scalar) : string * scalar :=
  (join_path pv.1, pv.2).

Definition build (L : list (list string * scalar)) (acc : Obj.t nested)
  : Obj.t nested :=
  foldl (λ acc pv, set_path pv.1 pv.2 acc) acc L.

(** The statement of the induction: the leaves of a well-formed value,
    written below a key that is not there yet, add that value. *)
Definition rebuilds (c : nested) : Prop :=
  wf_nested c = true →
  ∀ k acc, Obj.get k acc = None →
  build (under k (leaves c)) acc = acc ++ [(k, c)].

(** A path that a key of a flat mapping spells without loss: at least
    one segment, and no delimiter inside a segment. *)
Definition good_path (p : list string) : Prop :=
  p ≠ [] ∧ Forall (λ s, dot_free s = true) p.

(** Paths seen from the root: below the segments [pre]. *)
Definition below (pre : list string) (L : list (list string * scalar))
  : list (list string * scalar) :=
  (λ pv, (pre ++ pv.1, pv.2)) <$> L.

(** The statement of the induction for flattening: on an output that
    holds no path below [pre], flattening a well-formed value at [pre]
    appends its leaves. *)
Definition flattens (c : nested) : Prop :=
  wf_nested c = true →
  ∀ pre outS,
    good_path pre →
    Forall (λ pv, good_path pv.1) outS →
    (∀ pv, pv ∈ outS → ¬ pre `prefix_of` pv.1) →
    flatten_node (join_path pre) c (render <$> outS)
    = render <$> (outS ++ below pre (leaves c)).

End PathAddressing.

Import PathAddressing.

(** ** Records *)

(** A reference to an object: its address and what it holds. *)
Record ref (A : Type) : Type := mkRef { addr : nat; target : A }.
Arguments mkRef {A} _ _.
Arguments addr {A} _.
Arguments target {A} _.

(** Modelled from the spec: the declaration of the validation errors
    ([PropertyErrors], in the backend) is missing; an error is a
    description attached to a path. *)
Definition ErrorDescription : Type := string.

(** [RecordJSON] as the hook meets it at run time: any of the fields may
    be [undefined]. *)
Inductive RecordJSON : Type := mkRecordJSON {
  id : option string;
  params : option (Obj.t scalar);
  errors : option (gmap string ErrorDescription);
  populated : option (ref (gmap string RecordJSON))
}.

(** The entries of a [populated] field, none when it is [undefined]
    (spreading [undefined] adds nothing). *)
Definition entries (p : option (ref (gmap string RecordJSON)))
  : gmap string RecordJSON :=
  match p with
  | Some o => target o
  | None => ∅
  end.

(** The three mapping fields are defined. *)
Definition shaped (r : RecordJSON) : bool :=
  bool_decide (is_Some (params r))
  && bool_decide (is_Some (errors r))
  && bool_decide (is_Some (populated r)).

(** The [useState] initialiser (source lines 110-115): the fields of
    [initialRecord] with [params], [errors] and [populated] defaulted to
    fresh empty objects; [fresh] is the address of the object created for
    [populated]. *)
Definition initialState (fresh : nat) (initialRecord : option RecordJSON)
  : RecordJSON :=
  {| id := initialRecord ≫= id;
     params := Some (default [] (initialRecord ≫= params));
     errors := Some (default ∅ (initialRecord ≫= errors));
     populated := Some (default (mkRef fresh ∅) (initialRecord ≫= populated)) |}.

(** ** handleChange (source lines 125-162) *)

Inductive change_target : Type :=
  | TPath (path : string)
  | TRecord (r : RecordJSON).

Definition typeof_undefined (value : nested) : bool :=
  match value with
  | Leaf SUndefined => true
  | _ => false
  end.

Definition typeof_string (t : change_target) : bool :=
  match t with
  | TPath _ => true
  | TRecord _ => false
  end.

(** [propertyOrRecord.params] as a condition. *)
Definition params_truthy (t : change_target) : bool :=
  match t with
  | TPath _ => false
  | TRecord r => bool_decide (is_Some (params r))
  end.

(** The condition of the [if] of [handleChange]. *)
Definition is_replacement (t : change_target) (value : nested) : bool :=
  typeof_undefined value && negb (typeof_string t) && params_truthy t.

(** [propertyOrRecord as string] used as a property key: a string is the
    key itself, an object is converted to ["[object Object]"]. *)
Definition key_of (t : change_target) : string :=
  match t with
  | TPath path => path
  | TRecord _ => "[object Object]"
  end.

(** The body of the state updater of the [else] branch up to its
    [return] (source lines 138-154): the edited nested form,
    [populatedCopy] and [populatedModified]. [fresh] is the address of
    [populatedCopy]. *)
Definition edit_steps (fresh : nat) (key : string) (value : nested)
    (incomingRecord : option RecordJSON) (inflated : Obj.t nested)
    (prev_populated : option (ref (gmap string RecordJSON)))
  : Obj.t nested * ref (gmap string RecordJSON) * bool :=
  let populatedCopy := mkRef fresh (entries prev_populated) in
  if negb (nested_truthy value) then
    let inflated := Obj.delete key inflated in
    if js_in key (target populatedCopy)
    then (inflated, mkRef fresh (delete key (target populatedCopy)), true)
    else (inflated, populatedCopy, false)
  else
    let inflated := js_assign key value inflated in
    match incomingRecord with
    | Some ir =>
        (inflated, mkRef fresh (js_insert key ir (target populatedCopy)),
         true)
    | None => (inflated, populatedCopy, false)
    end.

(** The state updater of the [else] branch (source lines 137-160). With
    [params] undefined there is no nested object to edit and the updater
    fails. *)
Definition applyFieldEdit (fresh : nat) (key : string) (value : nested)
    (incomingRecord : option RecordJSON) (prev : RecordJSON)
  : option RecordJSON :=
  match params prev with
  | None => None
  | Some flat =>
      let '(inflated, populatedCopy, populatedModified) :=
        edit_steps fresh key value incomingRecord (toNested flat)
                   (populated prev) in
      Some {| id := id prev;
              params := Some (toFlat inflated);
              errors := errors prev;
              populated :=
                if populatedModified then Some populatedCopy
                else populated prev |}
  end.

(** [setRecord(propertyOrRecord)] when the call is a replacement, the
    updater otherwise. *)
Definition handleChange (fresh : nat) (propertyOrRecord : change_target)
    (value : nested) (incomingRecord : option RecordJSON)
    (prev : RecordJSON) : option RecordJSON :=
  match propertyOrRecord with
  | TRecord r =>
      if is_replacement propertyOrRecord value then Some r
      else applyFieldEdit fresh (key_of propertyOrRecord) value
                          incomingRecord prev
  | TPath _ =>
      applyFieldEdit fresh (key_of propertyOrRecord) value incomingRecord prev
  end.

(** ** The hook state and its surroundings *)

(** A JavaScript number as [Math.round] of a quotient of byte counts can
    produce it. *)
Inductive jsnum : Type :=
  | Num (z : Z)
  | NaN
  | Infinity.

Record ProgressEvent : Type := mkProgressEvent { loaded : N; total : N }.

(** *** Arithmetic of JavaScript numbers

    A JavaScript number that is not negative: a double with the value
    [num / den], positive infinity, or NaN. *)
Inductive double : Type :=
  | Finite (num den : Z)
  | PosInf
  | NotANumber.

(** [floor (log2 (n / d))] for positive [n] and [d]. *)
Definition floor_log2 (n d : Z) : Z :=
  let k := (Z.log2 n - Z.log2 d)%Z in
  if (n * 2 ^ Z.max 0 (- k) <? d * 2 ^ Z.max 0 k)%Z then (k - 1)%Z else k.

(** The integer nearest to [n / d], a tie going to the even one. *)
Definition round_half_even (n d : Z) : Z :=
  let q := (n / d)%Z in
  let r := (n mod d)%Z in
  if (2 * r <? d)%Z then q
  else if (d <? 2 * r)%Z then (q + 1)%Z
  else if Z.even q then q else (q + 1)%Z.

(** The double nearest to [n / d] (for [0 <= n], [0 < d]), ties to even:
    53 significant bits, exponents from [-1074] on, and infinity from
    [2^1024] on. *)
Definition binary64 (n d : Z) : double :=
  if (n =? 0)%Z then Finite 0 1
  else
    let e := Z.max (floor_log2 n d - 52) (-1074) in
    let m := round_half_even (n * 2 ^ Z.max 0 (- e)) (d * 2 ^ Z.max 0 e) in
    let num := (m * 2 ^ Z.max 0 e)%Z in
    let den := (2 ^ Z.max 0 (- e))%Z in
    if (num <? 2 ^ 1024 * den)%Z then Finite num den else PosInf.

(** The number a byte count is read as. *)
Definition to_double (n : N) : double := binary64 (Z.of_N n) 1.

(** [x * c] for a positive integer constant [c]. *)
Definition double_mul (x : double) (c : Z) : double :=
  match x with
  | Finite n d => binary64 (n * c) d
  | PosInf => PosInf
  | NotANumber => NotANumber
  end.

(** [a / b]: [0 / 0] is NaN, another number over [0] is infinity. *)
Definition double_div (a b : double) : double :=
  match a, b with
  | NotANumber, _ | _, NotANumber => NotANumber
  | PosInf, PosInf => NotANumber
  | PosInf, Finite _ _ => PosInf
  | Finite _ _, PosInf => Finite 0 1
  | Finite an ad, Finite bn bd =>
      if (bn =? 0)%Z then (if (an =? 0)%Z then NotANumber else PosInf)
      else binary64 (an * bd) (ad * bn)
  end.

(** [Math.round]: the nearest integer, halves upwards, that is
    [floor (x + 1/2)]; infinity and NaN are returned as they are. *)
Definition Math_round (x : double) : jsnum :=
  match x with
  | Finite n d => Num ((2 * n + d) / (2 * d))
  | PosInf => Infinity
  | NotANumber => NaN
  end.

(** [Math.round((e.loaded * 100) / e.total)] (source line 172). *)
Definition round_percent (e : ProgressEvent) : jsnum :=
  Math_round (double_div (double_mul (to_double (loaded e)) 100)
                         (to_double (total e))).

Record NoticeMessage : Type := mkNotice { message : string; type : string }.

(** Modelled from the spec: the declaration of [RecordActionResponse] (in
    the backend) is missing; a response carries an optional notice and the
    record data to merge. *)
Record RecordActionResponse : Type := mkResponse {
  notice : option NoticeMessage;
  responseRecord : RecordJSON
}.

(** Modelled from the spec: [mergeRecordResponse]
    (utils/merge-record-response) is missing; [params] and [errors] come
    from the server record, [populated] is the previous [populated] with
    the entries of the server record laid over it, and [id] is the one of
    the server record if present, the previous one otherwise. [fresh] is
    the address of the merged [populated]. *)
Definition mergeRecordResponse (fresh : nat) (previous : RecordJSON)
    (response : RecordActionResponse) : RecordJSON :=
  let serverRecord := responseRecord response in
  {| id := match id serverRecord with
           | Some i => Some i
           | None => id previous
           end;
     params := params serverRecord;
     errors := errors serverRecord;
     populated :=
       Some (mkRef fresh (entries (populated serverRecord)
                          ∪ entries (populated previous))) |}.

(** A multipart payload: named fields, [set] replacing a field of the
    same name. *)
Definition FormData : Type := Obj.t string.

(** The two operations of the [ApiClient] the hook calls, with the
    options it passes. *)
Inductive ApiCall : Type :=
  | recordAction (resourceId recordId actionName : string)
                 (data : FormData) (headers : list (string * string))
  | resourceAction (resourceId actionName : string)
                   (data : FormData) (headers : list (string * string)).

Record HookState : Type := mkHookState {
  record : RecordJSON;
  loading : bool;
  progress : jsnum
}.

(** The hook state together with what it acts on: the next free object
    address, the notices handed to [onNotice] and the calls made to the
    [ApiClient], both oldest first. *)
Record World : Type := mkWorld {
  hook : HookState;
  next_addr : nat;
  notices : list NoticeMessage;
  requests : list ApiCall
}.

Definition setLoading (b : bool) (w : World) : World :=
  mkWorld (mkHookState (record (hook w)) b (progress (hook w)))
          (next_addr w) (notices w) (requests w).

Definition setProgress (p : jsnum) (w : World) : World :=
  mkWorld (mkHookState (record (hook w)) (loading (hook w)) p)
          (next_addr w) (notices w) (requests w).

Definition setRecord (r : RecordJSON) (w : World) : World :=
  mkWorld (mkHookState r (loading (hook w)) (progress (hook w)))
          (next_addr w) (notices w) (requests w).

Definition onNotice (n : NoticeMessage) (w : World) : World :=
  mkWorld (hook w) (next_addr w) (notices w ++ [n]) (requests w).

Definition call_api (c : ApiCall) (w : World) : World :=
  mkWorld (hook w) (next_addr w) (notices w) (requests w ++ [c]).

(** Takes the next free address. *)
Definition alloc (w : World) : nat * World :=
  (next_addr w,
   mkWorld (hook w) (S (next_addr w)) (notices w) (requests w)).

(** The first render: [useState] with its initial values. *)
Definition first_render (initialRecord : option RecordJSON) : World :=
  mkWorld (mkHookState (initialState 0 initialRecord) false (Num 0))
          1 [] [].

(** The effect on [initialRecord] (source lines 119-123). *)
Definition initialRecord_effect (initialRecord : option RecordJSON)
    (w : World) : World :=
  match initialRecord with
  | Some r => setRecord r w
  | None => w
  end.

(** Mounting the hook: the first render, then its effect. *)
Definition mount (initialRecord : option RecordJSON) : World :=
  initialRecord_effect initialRecord (first_render initialRecord).

Definition change (propertyOrRecord : change_target) (value : nested)
    (incomingRecord : option RecordJSON) (w : World) : option World :=
  let '(fresh, w) := alloc w in
  r ← handleChange fresh propertyOrRecord value incomingRecord
                   (record (hook w));
  Some (setRecord r w).

(** A string that may be [undefined], as a condition: it holds when the
    string is defined and not empty. *)
Definition truthy_string (s : option string) : option string :=
  match s with
  | Some s => if String.eqb s "" then None else Some s
  | None => None
  end.

Definition errorNotice : NoticeMessage :=
  {| message := "There was an error updating record, Check out console to see more information.";
     type := "error" |}.

Section Submission.

(** [recordToFormData] (components/actions/record-to-form-data) is not
    part of the sources; the hook only hands the record to it. *)
Variable recordToFormData : RecordJSON → FormData.

(** [handleSubmit] up to the dispatch (source lines 167-185). *)
Definition handleSubmit (resourceId : string) (customParams : Obj.t string)
    (w : World) : World :=
  let record := record (hook w) in
  let w := setLoading true w in
  let formData :=
    foldl (λ fd kv, Obj.set kv.1 kv.2 fd) (recordToFormData record)
          customParams in
  let headers := [("Content-Type", "multipart/form-data")] in
  match truthy_string (id record) with
  | Some recordId =>
      call_api (recordAction resourceId recordId "edit" formData headers) w
  | None => call_api (resourceAction resourceId "new" formData headers) w
  end.

End Submission.

(** [onUploadProgress] (source line 172). *)
Definition onUploadProgress (e : ProgressEvent) (w : World) : World :=
  setProgress (round_percent e) w.

(** The handler given to [promise.then] (source lines 187-193). *)
Definition onFulfilled (response : RecordActionResponse) (w : World)
  : World :=
  let w := match notice response with
           | Some n => onNotice n w
           | None => w
           end in
  let '(fresh, w) := alloc w in
  let w := setRecord (mergeRecordResponse fresh (record (hook w)) response) w in
  let w := setProgress (Num 0) w in
  setLoading false w.

(** The handler given to [catch] (source lines 194-202). *)
Definition onRejected (w : World) : World :=
  let w := onNotice errorNotice w in
  let w := setProgress (Num 0) w in
  setLoading false w.

(** How the transport settles the promise. *)
Inductive outcome : Type :=
  | Fulfilled (response : RecordActionResponse)
  | Rejected.

Definition settle (o : outcome) (w : World) : World :=
  match o with
  | Fulfilled response => onFulfilled response w
  | Rejected => onRejected w
  end.

(** What the owner of the hook and the transport do to it. *)
Inductive event : Type :=
  | NewInitialRecord (initialRecord : option RecordJSON)
  | Change (propertyOrRecord : change_target) (value : nested)
           (incomingRecord : option RecordJSON)
  | Submit (resourceId : string) (customParams : Obj.t string)
  | UploadProgress (e : ProgressEvent)
  | Settle (o : outcome).

Definition step (recordToFormData : RecordJSON → FormData) (ev : event)
    (w : World) : option World :=
  match ev with
  | NewInitialRecord initialRecord =>
      Some (initialRecord_effect initialRecord w)
  | Change propertyOrRecord value incomingRecord =>
      change propertyOrRecord value incomingRecord w
  | Submit resourceId customParams =>
      Some (handleSubmit recordToFormData resourceId customParams w)
  | UploadProgress e => Some (onUploadProgress e w)
  | Settle o => Some (settle o w)
  end.

Fixpoint run (recordToFormData : RecordJSON → FormData) (evs : list event)
    (w : World) : option World :=
  match evs with
  | [] => Some w
  | ev :: evs => w' ← step recordToFormData ev w; run recordToFormData evs w'
  end.

(** The progress values recorded over a sequence of upload events, one
    per event. *)
Fixpoint recorded_progress (es : list ProgressEvent) (w : World)
  : list jsnum :=
  match es with
  | [] => []
  | e :: es =>
      let w := onUploadProgress e w in
      progress (hook w) :: recorded_progress es w
  end.


(** A field edit removes a populated entry when it clears a path that is
    populated, and adds one when it sets a value and supplies the resolved
    sub-record. *)
Definition removes_entry (key : string) (value : nested) (prev : RecordJSON)
  : bool :=
  negb (nested_truthy value)
  && bool_decide (is_Some (entries (populated prev) !! key)).

Definition adds_entry (value : nested) (incomingRecord : option RecordJSON)
  : bool :=
  nested_truthy value && bool_decide (is_Some incomingRecord).

(** A field edit that clears a path whose name every object inherits. *)
Definition clears_inherited (key : string) (value : nested) : bool :=
  negb (nested_truthy value) && inherited key.

(** The percentage [p] is the integer nearest to [100 * L / T], halves
    going up. *)
Definition nearest_percent (L T : N) (p : Z) : Prop :=
  (2 * Z.of_N T * p - Z.of_N T ≤ 200 * Z.of_N L
   < 2 * Z.of_N T * p + Z.of_N T)%Z.

(** The upload events of one submission of [T] bytes, given the bytes
    loaded at each event. *)
Definition upload_events (T : N) (Ls : list N) : list ProgressEvent :=
  (λ L, mkProgressEvent L T) <$> Ls.

(** The events of one submission: the call to submit, the upload events
    and the settlement of the promise. *)
Definition submission (resourceId : string) (customParams : Obj.t string)
    (es : list ProgressEvent) (o : outcome) : list event :=
  Submit resourceId customParams :: (UploadProgress <$> es) ++ [Settle o].

Definition call_resourceId (c : ApiCall) : string :=
  match c with
  | recordAction resourceId _ _ _ _ => resourceId
  | resourceAction resourceId _ _ _ => resourceId
  end.

(** ** Sample data *)

Definition sample_nested : Obj.t nested :=
  [("name", Leaf (SStr "Alice"));
   ("address", Node KObject [("city", Leaf (SStr "Oslo"));
                             ("zip", Leaf (SNum 150))]);
   ("tags", Node KArray [("0", Leaf (SStr "a"));
                         ("1", Node KObject [("label", Leaf SNull)])])].

Definition empty_record : RecordJSON :=
  {| id := None; params := Some []; errors := Some ∅;
     populated := Some (mkRef 0 ∅) |}.

Definition owner_record : RecordJSON :=
  {| id := Some "42"; params := Some [("name", SStr "Bob")];
     errors := Some ∅; populated := Some (mkRef 1 ∅) |}.

Definition saved_record : RecordJSON :=
  {| id := Some "7"; params := Some [("name", SStr "Alice")];
     errors := Some ∅;
     populated := Some (mkRef 2 {[ "owner" := owner_record ]}) |}.


Definition sample_response : RecordActionResponse :=
  {| notice := Some (mkNotice "Successfully updated" "success");
     responseRecord := saved_record |}.

Definition sample_formData (r : RecordJSON) : FormData :=
  match params r with
  | Some flat =>
      (λ pv, (pv.1, match pv.2 with SStr s => s | _ => "" end)) <$> flat
  | None => []
  end.

(** ** Notions used to state what the handlers do *)

(** The path [p] is [key] itself or lies below it: [key], a delimiter and
    more. *)
Definition at_or_under (key p : string) : Prop :=
  p = key ∨ ∃ rest, p = (key ++ String delimiter rest)%string.

(** The payload of a call to the [ApiClient]. *)
Definition call_data (c : ApiCall) : FormData :=
  match c with
  | recordAction _ _ _ data _ => data
  | resourceAction _ _ data _ => data
  end.

(** The notices an event hands to [onNotice]: the fixed error notice of
    a rejection, the notice of a fulfilled response if it has one. *)
Definition emitted (ev : event) : list NoticeMessage :=
  match ev with
  | Settle Rejected => [errorNotice]
  | Settle (Fulfilled response) =>
      match notice response with
      | Some n => [n]
      | None => []
      end
  | _ => []
  end.

Definition is_submit (ev : event) : bool :=
  match ev with
  | Submit _ _ => true
  | _ => false
  end.

(** The events that install no record from outside: field edits,
    submissions, upload events, rejections and renders without an initial
    record. *)
Definition local_event (ev : event) : bool :=
  match ev with
  | NewInitialRecord None => true
  | NewInitialRecord (Some _) => false
  | Change t value _ => negb (is_replacement t value)
  | Submit _ _ => true
  | UploadProgress _ => true
  | Settle Rejected => true
  | Settle (Fulfilled _) => false
  end.

(** A run of the hook used to exercise the statements below. *)
Definition sample_events : list event :=
  [Change (TPath "name") (Leaf (SStr "Carol")) None;
   Submit "users" [("locale", "en")];
   UploadProgress (mkProgressEvent 5 10);
   Settle Rejected].

Definition sample_run_result : World :=
  default (mount None)
          (run sample_formData sample_events (mount (Some saved_record))).

(** * Part II: properties *)

(** ** Ordered objects *)

Section ObjFacts.
Context {A : Type}.
Implicit Types (o : Obj.t A) (k : string) (v : A).

Lemma obj_get_None k o : Obj.get k o = None ↔ k ∉ Obj.keys o.
Proof.
  unfold Obj.keys. induction o as [|[k' v] o IH]; simpl.
  - split; [intros _; apply not_elem_of_nil | done].
  - rewrite not_elem_of_cons. case_decide; subst.
    + split; [done | intros [? _]; done].
    + rewrite IH. tauto.
Qed.

Lemma obj_set_fresh k v o : Obj.get k o = None → Obj.set k v o = o ++ [(k, v)].
Proof.
  induction o as [|[k' v'] o IH]; simpl; [done|].
  case_decide; [done|]. intros H'. by rewrite IH.
Qed.

Lemma obj_get_set_eq k v o : Obj.get k (Obj.set k v o) = Some v.
Proof.
  induction o as [|[k' v'] o IH]; simpl.
  - by rewrite decide_True.
  - case_decide; simpl.
    + by rewrite decide_True.
    + by rewrite decide_False.
Qed.

Lemma obj_get_set_ne k k' v o :
  k ≠ k' → Obj.get k' (Obj.set k v o) = Obj.get k' o.
Proof.
  intros Hne. induction o as [|[k0 v0] o IH]; simpl.
  - by rewrite decide_False.
  - case_decide; simpl; subst.
    + by rewrite !decide_False.
    + by rewrite IH.
Qed.

Lemma obj_set_set k v w o : Obj.set k w (Obj.set k v o) = Obj.set k w o.
Proof.
  induction o as [|[k' v'] o IH]; simpl.
  - by rewrite decide_True.
  - case_decide; simpl.
    + by rewrite decide_True.
    + by rewrite decide_False, IH.
Qed.

Lemma obj_set_id k v o : Obj.get k o = Some v → Obj.set k v o = o.
Proof.
  induction o as [|[k' v'] o IH]; simpl; [done|].
  case_decide; subst.
  - by intros [= ->].
  - intros H'. by rewrite IH.
Qed.

Lemma obj_get_snoc k v o : Obj.get k o = None → Obj.get k (o ++ [(k, v)]) = Some v.
Proof. intros H. rewrite <- (obj_set_fresh k v o H). apply obj_get_set_eq. Qed.

Lemma obj_get_snoc_ne k k' v o :
  k ≠ k' → Obj.get k' (o ++ [(k, v)]) = Obj.get k' o.
Proof.
  intros Hne. induction o as [|[k0 v0] o IH]; simpl.
  - by rewrite decide_False.
  - by rewrite IH.
Qed.

Lemma obj_get_delete_eq k o : Obj.get k (Obj.delete k o) = None.
Proof.
  induction o as [|[k' v'] o IH]; simpl; [done|].
  case_decide; simpl; [done|]. by rewrite decide_False.
Qed.

Lemma obj_get_delete_ne k k' o :
  k ≠ k' → Obj.get k' (Obj.delete k o) = Obj.get k' o.
Proof.
  intros Hne. induction o as [|[k0 v0] o IH]; simpl; [done|].
  case_decide; simpl; subst.
  - by rewrite decide_False.
  - by rewrite IH.
Qed.

Lemma obj_delete_absent k o : Obj.get k o = None → Obj.delete k o = o.
Proof.
  induction o as [|[k' v'] o IH]; simpl; [done|].
  case_decide; [done|]. intros H'. by rewrite IH.
Qed.

End ObjFacts.

(** ** Path strings: splitting undoes joining *)

Lemma split_path_segment k : dot_free k = true → split_path k = [k].
Proof.
  induction k as [|c k IH]; simpl; [done|].
  intros [Hc Hk]%andb_prop. apply negb_true_iff in Hc.
  by rewrite Hc, (IH Hk).
Qed.

Lemma split_path_app k s :
  dot_free k = true →
  split_path (k ++ String delimiter s) = k :: split_path s.
Proof.
  induction k as [|c k IH]; simpl; [done|].
  intros [Hc Hk]%andb_prop. apply negb_true_iff in Hc.
  by rewrite Hc, (IH Hk).
Qed.

Lemma split_join segs :
  segs ≠ [] → Forall (λ s, dot_free s = true) segs →
  split_path (join_path segs) = segs.
Proof.
  induction segs as [|k [|k2 rest] IH]; [done| |].
  - intros _ Hk%Forall_inv. by apply split_path_segment.
  - intros _ Hall. apply Forall_cons in Hall as [Hk Hrest].
    change (join_path (k :: k2 :: rest))
      with (k ++ String delimiter (join_path (k2 :: rest)))%string.
    rewrite split_path_app by done. f_equal. by apply IH.
Qed.

Lemma string_app_assoc (a b c : string) :
  ((a ++ b) ++ c = a ++ (b ++ c))%string.
Proof.
  induction a as [|x a IH]; [done|].
  change (String x ((a ++ b) ++ c) = String x (a ++ (b ++ c)))%string.
  by rewrite IH.
Qed.

Lemma join_path_snoc pre k :
  pre ≠ [] →
  join_path (pre ++ [k]) = (join_path pre ++ String delimiter k)%string.
Proof.
  induction pre as [|p [|p2 rest] IH]; [done|done|].
  intros _.
  change (join_path ((p :: p2 :: rest) ++ [k]))
    with (p ++ String delimiter (join_path ((p2 :: rest) ++ [k])))%string.
  rewrite IH by done.
  change (join_path (p :: p2 :: rest))
    with (p ++ String delimiter (join_path (p2 :: rest)))%string.
  by rewrite string_app_assoc.
Qed.

Lemma is_digit_not_delimiter c : is_digit c = true → Ascii.eqb c delimiter = false.
Proof.
  intros Hd. destruct (Ascii.eqb_spec c delimiter) as [->|]; [|done].
  by vm_compute in Hd.
Qed.

Lemma all_digits_dot_free s : all_digits s = true → dot_free s = true.
Proof.
  induction s as [|c s IH]; simpl; [done|].
  intros [Hc Hs]%andb_prop.
  by rewrite (is_digit_not_delimiter c Hc), (IH Hs).
Qed.

Lemma is_index_dot_free s : is_index s = true → dot_free s = true.
Proof. destruct s; [done|]. apply all_digits_dot_free. Qed.

(** ** PathAddressing: rebuilding a structure from its leaves *)

Lemma nested_ind' (P : nested → Prop) :
  (∀ v, P (Leaf v)) →
  (∀ kd ch, Forall (λ kc, P kc.2) ch → P (Node kd ch)) →
  ∀ n, P n.
Proof.
  intros HL HN. fix IH 1. intros [v|kd ch]; [apply HL|].
  apply HN. induction ch as [|[k c] ch IHch]; constructor;
    [apply IH | apply IHch].
Qed.

Lemma leaves_children_cons k c ch :
  leaves_children ((k, c) :: ch) = under k (leaves c) ++ leaves_children ch.
Proof. done. Qed.

Lemma leaves_Node kd ch : leaves (Node kd ch) = leaves_children ch.
Proof. done. Qed.

Lemma build_app L1 L2 acc : build (L1 ++ L2) acc = build L2 (build L1 acc).
Proof. apply foldl_app. Qed.

Lemma wf_nested_Node kd ch :
  wf_nested (Node kd ch) = true ↔ ch ≠ [] ∧ wf_children kd ch = true.
Proof.
  unfold wf_children. simpl. rewrite !andb_true_iff.
  destruct ch; intuition done.
Qed.

Lemma wf_children_cons kd k c ch :
  wf_children kd ((k, c) :: ch) = true ↔
(k ∉ ch.*1) ∧ key_ok kd k = true ∧ wf_nested c = true
  ∧ wf_children kd ch = true.
Proof.
  unfold wf_children. simpl.
  rewrite !andb_true_iff, !bool_decide_eq_true, NoDup_cons. tauto.
Qed.

Lemma wf_root_cons k c ch :
  wf_root ((k, c) :: ch) = true ↔
  (k ∉ ch.*1) ∧ dot_free k = true ∧ wf_nested c = true
  ∧ wf_root ch = true.
Proof.
  unfold wf_root. simpl.
  rewrite !andb_true_iff, !bool_decide_eq_true, NoDup_cons. tauto.
Qed.

Lemma key_ok_kind kd k : key_ok kd k = true → kind_of k = kd.
Proof.
  unfold kind_of. destruct kd; simpl.
  - intros [_ Hn]%andb_prop. apply negb_true_iff in Hn. by rewrite Hn.
  - by intros ->.
Qed.

Lemma key_ok_dot_free kd k : key_ok kd k = true → dot_free k = true.
Proof.
  destruct kd; simpl.
  - by intros [? _]%andb_prop.
  - apply is_index_dot_free.
Qed.

Lemma wf_children_root kd ch : wf_children kd ch = true → wf_root ch = true.
Proof.
  induction ch as [|[k c] ch IH]; [done|].
  intros (Hk & Hkey & Hc & Hch)%wf_children_cons.
  apply wf_root_cons. split; [done|]. split; [by eapply key_ok_dot_free|].
  split; [done | by apply IH].
Qed.

Lemma wf_leaves_nonempty n : wf_nested n = true → leaves n ≠ [].
Proof.
  induction n as [v|kd ch IH] using nested_ind'; [done|].
  intros [Hne Hwf]%wf_nested_Node. rewrite leaves_Node.
  destruct ch as [|[k c] ch]; [done|].
  apply wf_children_cons in Hwf as (_ & _ & Hc & _).
  apply Forall_inv in IH. specialize (IH Hc).
  rewrite leaves_children_cons. simpl in *.
  destruct (leaves c); [done|]. done.
Qed.

(** Writing below a container that is already there. *)
Lemma build_under k kd L : ∀ s acc,
  Forall (λ pv, pv.1 ≠ []) L →
  Obj.get k acc = Some (Node kd s) →
  build (under k L) acc = Obj.set k (Node kd (build L s)) acc.
Proof.
  induction L as [|[p v] L IH]; intros s acc HL Hget.
  - simpl. symmetry. by apply obj_set_id.
  - apply Forall_cons in HL as [Hp HL]. simpl in Hp.
    destruct p as [|k2 q]; [done|].
    change (build (under k ((k2 :: q, v) :: L)) acc)
      with (build (under k L) (set_path (k :: k2 :: q) v acc)).
    change (set_path (k :: k2 :: q) v acc)
      with (match Obj.get k acc with
            | None => Obj.set k (Node (kind_of k2) (set_path (k2 :: q) v [])) acc
            | Some (Node kd sub) =>
                Obj.set k (Node kd (set_path (k2 :: q) v sub)) acc
            | Some (Leaf _) => acc
            end).
    rewrite Hget.
    rewrite (IH (set_path (k2 :: q) v s)); [|done|apply obj_get_set_eq].
    by rewrite obj_set_set.
Qed.

(** Writing the leaves of a new container. *)
Lemma build_fresh k kd k2 q v L acc :
  kind_of k2 = kd →
  Forall (λ pv, pv.1 ≠ []) L →
  Obj.get k acc = None →
  build (under k ((k2 :: q, v) :: L)) acc
  = acc ++ [(k, Node kd (build ((k2 :: q, v) :: L) []))].
Proof.
  intros Hkd HL Hget.
  change (build (under k ((k2 :: q, v) :: L)) acc)
    with (build (under k L) (set_path (k :: k2 :: q) v acc)).
  change (set_path (k :: k2 :: q) v acc)
    with (match Obj.get k acc with
          | None => Obj.set k (Node (kind_of k2) (set_path (k2 :: q) v [])) acc
          | Some (Node kd sub) =>
              Obj.set k (Node kd (set_path (k2 :: q) v sub)) acc
          | Some (Leaf _) => acc
          end).
  rewrite Hget, Hkd.
  rewrite (build_under k kd L (set_path (k2 :: q) v []));
    [|done|apply obj_get_set_eq].
  rewrite obj_set_set. by apply obj_set_fresh.
Qed.

Lemma leaves_children_paths ch :
  Forall (λ pv, pv.1 ≠ []) (leaves_children ch).
Proof.
  induction ch as [|[k c] ch IH]; [constructor|].
  rewrite leaves_children_cons. apply Forall_app. split; [|done].
  unfold under. apply Forall_forall. intros pv Hpv.
  apply list_elem_of_fmap in Hpv as (pv' & -> & _). done.
Qed.

Lemma build_children ch :
  Forall (λ kc, rebuilds kc.2) ch →
  wf_root ch = true →
  ∀ acc, (∀ k, k ∈ ch.*1 → Obj.get k acc = None) →
  build (leaves_children ch) acc = acc ++ ch.
Proof.
  induction ch as [|[k c] ch IH]; intros Hreb Hwf acc Hfresh.
  - by rewrite app_nil_r.
  - apply Forall_cons in Hreb as [Hc Hreb]. simpl in Hc.
    apply wf_root_cons in Hwf as (Hk & _ & Hwfc & Hwf).
    rewrite leaves_children_cons, build_app.
    rewrite (Hc Hwfc k acc) by (apply Hfresh; simpl; left).
    rewrite (IH Hreb Hwf).
    + by rewrite <- app_assoc.
    + intros k' Hk'. rewrite obj_get_snoc_ne by (intros ->; done).
      apply Hfresh. simpl. by right.
Qed.

Lemma leaves_children_head k1 c1 ch :
  leaves c1 ≠ [] →
  ∃ q v L, leaves_children ((k1, c1) :: ch) = (k1 :: q, v) :: L.
Proof.
  intros Hne. rewrite leaves_children_cons.
  destruct (leaves c1) as [|[q v] L1]; [done|].
  by exists q, v, (under k1 L1 ++ leaves_children ch).
Qed.

Lemma rebuilds_all c : rebuilds c.
Proof.
  induction c as [v|kd ch IH] using nested_ind'; intros Hwf k acc Hget.
  - simpl. by apply obj_set_fresh.
  - apply wf_nested_Node in Hwf as [Hne Hch].
    rewrite leaves_Node.
    destruct ch as [|[k1 c1] ch]; [done|].
    pose proof Hch as (_ & Hk1 & Hc1 & _)%wf_children_cons.
    pose proof (leaves_children_paths ((k1, c1) :: ch)) as Hpaths.
    assert (build (leaves_children ((k1, c1) :: ch)) [] = (k1, c1) :: ch)
      as Hsub.
    { rewrite build_children; [done|done| |intros; done].
      by eapply wf_children_root. }
    destruct (leaves_children_head k1 c1 ch) as (q & v & L & HL);
      [by apply wf_leaves_nonempty|].
    rewrite HL in Hpaths, Hsub |- *.
    apply Forall_cons in Hpaths as [_ Hpaths].
    rewrite (build_fresh k kd k1 q v) by (auto using key_ok_kind).
    by rewrite Hsub.
Qed.

Lemma build_leaves root :
  wf_root root = true → build (leaves_children root) [] = root.
Proof.
  intros Hwf. rewrite build_children; [done| |done|done].
  apply Forall_forall. intros; apply rebuilds_all.
Qed.

(** ** PathAddressing: flattening lists the leaves *)

Lemma join_path_inj p q :
  good_path p → good_path q → join_path p = join_path q → p = q.
Proof.
  intros [Hp1 Hp2] [Hq1 Hq2] Heq.
  rewrite <- (split_join p), <- (split_join q) by done. by rewrite Heq.
Qed.

Lemma get_render_None pre outS :
  good_path pre →
  Forall (λ pv, good_path pv.1) outS →
  (∀ pv, pv ∈ outS → pv.1 ≠ pre) →
  Obj.get (join_path pre) (render <$> outS) = None.
Proof.
  intros Hpre Hgood Hne. apply obj_get_None. unfold Obj.keys.
  intros Hin. apply list_elem_of_fmap in Hin as ([s v] & Hs & Hin).
  apply list_elem_of_fmap in Hin as (pv & Hpv & Hin). simpl in Hs. subst s.
  unfold render in Hpv. injection Hpv as Hj _.
  apply (Hne pv Hin). symmetry. apply join_path_inj; [done| |done].
  by apply (proj1 (Forall_forall _ _) Hgood).
Qed.

Lemma below_under pre k L : below pre (under k L) = below (pre ++ [k]) L.
Proof.
  unfold below, under. rewrite <- list_fmap_compose.
  apply list_fmap_ext. intros _ [q v] _. simpl.
  by rewrite <- app_assoc.
Qed.

Lemma below_app pre L1 L2 :
  below pre (L1 ++ L2) = below pre L1 ++ below pre L2.
Proof. apply fmap_app. Qed.

Lemma below_nil L : below [] L = L.
Proof.
  induction L as [|[q v] L IH]; [done|].
  unfold below in *. simpl. by f_equal.
Qed.

Lemma leaves_dot_free c :
  wf_nested c = true →
  ∀ pv, pv ∈ leaves c → Forall (λ s, dot_free s = true) pv.1.
Proof.
  induction c as [v|kd ch IH] using nested_ind'.
  - intros _ pv ->%list_elem_of_singleton. constructor.
  - intros [_ Hwf]%wf_nested_Node. rewrite leaves_Node.
    induction ch as [|[k c] ch IHch]; intros pv Hpv.
    + by apply elem_of_nil in Hpv.
    + apply Forall_cons in IH as [Hc IH].
      apply wf_children_cons in Hwf as (_ & Hk & Hwfc & Hwf).
      rewrite leaves_children_cons in Hpv.
      apply elem_of_app in Hpv as [Hpv|Hpv]; [|by apply IHch].
      apply list_elem_of_fmap in Hpv as (pv' & -> & Hpv'). simpl.
      constructor; [by eapply key_ok_dot_free | by apply Hc].
Qed.

Lemma flatten_children ch :
  Forall (λ kc, flattens kc.2) ch →
  wf_root ch = true →
  ∀ pre outS,
    Forall (λ s, dot_free s = true) pre →
    Forall (λ pv, good_path pv.1) outS →
    (∀ pv k, pv ∈ outS → k ∈ ch.*1 → ¬ (pre ++ [k]) `prefix_of` pv.1) →
    foldl (λ acc kc, flatten_node (join_path (pre ++ [kc.1])) kc.2 acc)
          (render <$> outS) ch
    = render <$> (outS ++ below pre (leaves_children ch)).
Proof.
  induction ch as [|[k c] ch IH]; intros Hfl Hwf pre outS Hpre Hgood Hfresh.
  - simpl. by rewrite app_nil_r.
  - apply Forall_cons in Hfl as [Hc Hfl]. simpl in Hc.
    apply wf_root_cons in Hwf as (Hk & Hkey & Hwfc & Hwf).
    assert (good_path (pre ++ [k])) as Hgk.
    { split; [by destruct pre|].
      apply Forall_app. split; [done|]. by repeat constructor. }
    cbn [foldl fst snd]. rewrite (Hc Hwfc (pre ++ [k]) outS Hgk Hgood).
    2:{ intros pv Hpv. apply (Hfresh pv k Hpv). simpl. left. }
    rewrite (IH Hfl Hwf pre); [| done | |].
    + by rewrite leaves_children_cons, below_app, below_under, <- app_assoc.
    + apply Forall_app. split; [done|].
      apply Forall_forall. intros pv Hpv.
      apply list_elem_of_fmap in Hpv as ([q v] & -> & Hq). simpl.
      split; [by destruct pre|].
      apply Forall_app. split; [by destruct Hgk|].
      by apply (leaves_dot_free c Hwfc (q, v)).
    + intros pv k' Hpv Hk'.
      apply elem_of_app in Hpv as [Hpv|Hpv].
      * apply (Hfresh pv k' Hpv). simpl. by right.
      * apply list_elem_of_fmap in Hpv as ([q v] & -> & Hq). simpl.
        rewrite <- app_assoc. intros Hpre'%prefix_app_inv.
        apply prefix_cons_inv_1 in Hpre'. by subst k'.
Qed.

Lemma flattens_all c : flattens c.
Proof.
  induction c as [v|kd ch IH] using nested_ind';
    intros Hwf pre outS Hpre Hgood Hfresh.
  - simpl. rewrite obj_set_fresh.
    + rewrite fmap_app. simpl. unfold render at 3. simpl.
      by rewrite app_nil_r.
    + apply get_render_None; [done|done|].
      intros pv Hpv Heq. apply (Hfresh pv Hpv). by rewrite Heq.
  - apply wf_nested_Node in Hwf as [_ Hwf].
    destruct Hpre as [Hne Hdf]. rewrite leaves_Node.
    change (flatten_node (join_path pre) (Node kd ch) (render <$> outS))
      with (foldl (λ acc kc,
                     flatten_node (join_path pre ++ String delimiter kc.1)%string
                                  kc.2 acc)
                  (render <$> outS) ch).
    rewrite <- (flatten_children ch IH (wf_children_root kd ch Hwf)
                  pre outS Hdf Hgood).
    + generalize (render <$> outS). clear -Hne.
      induction ch as [|[k c] ch IHch]; intros out; [done|].
      simpl. rewrite IHch. by rewrite join_path_snoc.
    + intros pv k Hpv _ Hpk. apply (Hfresh pv Hpv).
      by eapply prefix_app_l.
Qed.

Lemma toFlat_leaves root :
  wf_root root = true → toFlat root = render <$> leaves_children root.
Proof.
  intros Hwf.
  pose proof (flatten_children root) as H.
  specialize (H (proj2 (Forall_forall _ _) (λ kc _, flattens_all kc.2))).
  specialize (H Hwf [] []). simpl in H.
  rewrite below_nil in H. apply H; [constructor|constructor|].
  intros pv k Hpv. by apply elem_of_nil in Hpv.
Qed.

Lemma toNested_render L : ∀ acc,
  Forall (λ pv, good_path pv.1) L →
  foldl (λ acc pv, set_path (split_path pv.1) pv.2 acc) acc (render <$> L)
  = build L acc.
Proof.
  induction L as [|[p v] L IH]; intros acc Hgood; [done|].
  apply Forall_cons in Hgood as [[Hne Hdf] Hgood]. simpl in *.
  rewrite split_join by done. by apply IH.
Qed.

Lemma leaves_children_good ch :
  wf_root ch = true →
  Forall (λ pv, good_path pv.1) (leaves_children ch).
Proof.
  intros Hwf. apply Forall_forall. intros pv Hpv. split.
  - by apply (proj1 (Forall_forall _ _) (leaves_children_paths ch)).
  - induction ch as [|[k c] ch IH]; [by apply elem_of_nil in Hpv|].
    apply wf_root_cons in Hwf as (_ & Hk & Hc & Hwf).
    rewrite leaves_children_cons in Hpv.
    apply elem_of_app in Hpv as [Hpv|Hpv]; [|by apply IH].
    apply list_elem_of_fmap in Hpv as (pv' & -> & Hpv'). simpl.
    constructor; [done | by apply (leaves_dot_free c)].
Qed.

Example toFlat_sample :
  toFlat sample_nested
  = [("name", SStr "Alice"); ("address.city", SStr "Oslo");
     ("address.zip", SNum 150); ("tags.0", SStr "a");
     ("tags.1.label", SNull)].
Proof. reflexivity. Qed.

Lemma toNested_toFlat N : wf_root N = true → toNested (toFlat N) = N.
Proof.
  intros Hwf. rewrite toFlat_leaves by done. unfold toNested.
  rewrite toNested_render by (by apply leaves_children_good).
  by apply build_leaves.
Qed.

(** C1. PathAddressing round trip: for every well-formed nested structure
    [N] (objects and arrays of arbitrary depth with scalar leaves),
    unflattening the flattened [N] gives [N] back, and for every flat
    mapping [F] produced by flattening such a structure, flattening the
    unflattened [F] gives [F] back. *)
Theorem path_addressing_round_trip (N : Obj.t nested) :
  wf_root N = true →
  toNested (toFlat N) = N
  ∧ ∀ F, F = toFlat N → toFlat (toNested F) = F.
Proof.
  intros Hwf. split; [by apply toNested_toFlat|].
  intros F ->. by rewrite toNested_toFlat.
Qed.

Lemma path_addressing_round_trip_witness :
  wf_root sample_nested = true
  ∧ toNested (toFlat sample_nested) = sample_nested
  ∧ ∀ F, F = toFlat sample_nested → toFlat (toNested F) = F.
Proof.
  split; [reflexivity|].
  apply (path_addressing_round_trip sample_nested). reflexivity.
Defined.

(** ** handleChange *)

Lemma inherited_proto : inherited "__proto__" = true.
Proof. reflexivity. Qed.

Lemma not_inherited_proto key : inherited key = false → key ≠ "__proto__".
Proof. intros Hk ->. by rewrite inherited_proto in Hk. Qed.

Lemma js_insert_other {A} key (v : A) (own : gmap string A) :
  key ≠ "__proto__" → js_insert key v own = <[key := v]> own.
Proof.
  intros Hk. unfold js_insert. by rewrite (bool_decide_eq_false_2 _ Hk).
Qed.

Lemma js_insert_own {A} key (v : A) (own : gmap string A) :
  is_Some (own !! key) → js_insert key v own = <[key := v]> own.
Proof.
  intros [x Hx]. unfold js_insert.
  rewrite (bool_decide_eq_false_2 (own !! key = None)) by (by rewrite Hx).
  by rewrite andb_false_r.
Qed.

(** The flag [populatedModified]: set when an entry is removed, when a
    sub-record is stored, and also when the cleared path is a name every
    object inherits. *)
Lemma edit_steps_flag fresh key value incomingRecord inflated pp :
  (edit_steps fresh key value incomingRecord inflated pp).2
  = removes_entry key value (mkRecordJSON None None None pp)
    || adds_entry value incomingRecord
    || clears_inherited key value.
Proof.
  unfold edit_steps, removes_entry, adds_entry, clears_inherited, js_in.
  simpl. destruct (nested_truthy value); simpl.
  - rewrite orb_false_r. by destruct incomingRecord.
  - rewrite orb_false_r.
    by destruct (bool_decide _), (inherited key).
Qed.

Lemma edit_steps_populated fresh key value incomingRecord inflated pp :
  (edit_steps fresh key value incomingRecord inflated pp).1.2
  = mkRef fresh
      (if nested_truthy value
       then match incomingRecord with
            | Some ir => js_insert key ir (entries pp)
            | None => entries pp
            end
       else delete key (entries pp)).
Proof.
  unfold edit_steps, js_in. simpl.
  destruct (nested_truthy value); simpl.
  - by destruct incomingRecord.
  - case_bool_decide as Hin; simpl.
    { done. }
    assert (delete key (entries pp) = entries pp) as ->.
    { apply delete_id. by apply eq_None_not_Some. }
    by destruct (inherited key).
Qed.

Lemma applyFieldEdit_Some fresh key value incomingRecord prev flat :
  params prev = Some flat →
  ∃ r', applyFieldEdit fresh key value incomingRecord prev = Some r'
        ∧ id r' = id prev
        ∧ errors r' = errors prev
        ∧ is_Some (params r')
        ∧ populated r'
          = if removes_entry key value prev || adds_entry value incomingRecord
               || clears_inherited key value
            then Some (edit_steps fresh key value incomingRecord
                                  (toNested flat) (populated prev)).1.2
            else populated prev.
Proof.
  intros Hp. unfold applyFieldEdit. rewrite Hp.
  pose proof (edit_steps_flag fresh key value incomingRecord (toNested flat)
                (populated prev)) as Hflag.
  destruct (edit_steps fresh key value incomingRecord (toNested flat)
              (populated prev)) as [[inflated populatedCopy] modified].
  simpl in Hflag. eexists. split; [done|]. simpl.
  repeat split; [by eexists|].
  rewrite Hflag. done.
Qed.

(** *** Clearing a path

    The keys of an unflattened mapping are first segments of paths, so
    none of them contains the delimiter. *)

Lemma split_path_dot_free s : Forall (λ k, dot_free k = true) (split_path s).
Proof.
  induction s as [|c s IH]; simpl; [by repeat constructor|].
  destruct (Ascii.eqb c delimiter) eqn:Hc; [by constructor|].
  destruct (split_path s) as [|seg rest].
  { constructor; [simpl; by rewrite Hc | constructor]. }
  apply Forall_cons in IH as [Hseg Hrest].
  constructor; [|done]. simpl. by rewrite Hc, Hseg.
Qed.

Lemma obj_keys_set {A} k (v : A) o x :
  x ∈ Obj.keys (Obj.set k v o) → x = k ∨ x ∈ Obj.keys o.
Proof.
  unfold Obj.keys. induction o as [|[k' v'] o IH]; simpl.
  - intros ->%list_elem_of_singleton. by left.
  - case_decide; simpl; subst.
    + intros [->|?]%elem_of_cons; [by left | right; by right].
    + intros [->|Hx]%elem_of_cons; [right; by left|].
      destruct (IH Hx); [by left | right; by right].
Qed.

Lemma set_path_keys segs v o x :
  x ∈ Obj.keys (set_path segs v o) →
  x ∈ Obj.keys o ∨ ∃ rest, segs = x :: rest.
Proof.
  destruct segs as [|k [|k2 rest]]; simpl.
  - by left.
  - intros [->|?]%obj_keys_set; [right; by eexists | by left].
  - destruct (Obj.get k o) as [[?|kd sub]|]; [by left| |].
    + intros [->|?]%obj_keys_set; [right; by eexists | by left].
    + intros [->|?]%obj_keys_set; [right; by eexists | by left].
Qed.

Lemma toNested_keys_dot_free flat x :
  x ∈ Obj.keys (toNested flat) → dot_free x = true.
Proof.
  unfold toNested.
  assert (∀ acc : Obj.t nested,
            (∀ y, y ∈ Obj.keys acc → dot_free y = true) →
            x ∈ Obj.keys
                  (foldl (λ acc pv, set_path (split_path pv.1) pv.2 acc)
                         acc flat) →
            dot_free x = true) as Hgen.
  { induction flat as [|[p v] flat IH]; intros acc Hacc; [by apply Hacc|].
    simpl. apply IH. intros y [Hy|[rest Hy]]%set_path_keys; [by apply Hacc|].
    pose proof (split_path_dot_free p) as Hp. rewrite Hy in Hp.
    by apply Forall_cons in Hp as [? _]. }
  apply Hgen. intros y Hy. by apply elem_of_nil in Hy.
Qed.

(** Clearing a path that contains the delimiter removes nothing from the
    nested form: [params] comes out as the flattening of what it
    unflattens to. *)
Lemma clear_dotted_path_keeps_params fresh path value incomingRecord prev flat :
  params prev = Some flat →
  dot_free path = false →
  nested_truthy value = false →
  ∃ r', handleChange fresh (TPath path) value incomingRecord prev = Some r'
        ∧ params r' = Some (toFlat (toNested flat)).
Proof.
  intros Hp Hdot Hv. simpl. unfold applyFieldEdit, edit_steps.
  rewrite Hp, Hv. simpl.
  rewrite obj_delete_absent.
  - destruct (js_in _ _); by eexists.
  - apply obj_get_None. intros Hin%toNested_keys_dot_free. congruence.
Qed.

(** C2, at the failing input. On the record with no params and nothing
    populated, setting ["a.b"] to ["x"] and then clearing ["a.b"] leaves
    ["a.b"] in [params]: the nested form has the key ["a"], not the key
    ["a.b"], so [delete inflated[key]] removes nothing, and the resulting
    [params] differs from the one of the record even with the order of the
    keys set aside. *)
Theorem edit_then_clear_keeps_dotted_path :
  ∃ r1 r2 p2 p0,
    handleChange 1 (TPath "a.b") (Leaf (SStr "x")) None empty_record
    = Some r1
    ∧ handleChange 2 (TPath "a.b") (Leaf SUndefined) None r1 = Some r2
    ∧ entries (populated empty_record) !! "a.b" = None
    ∧ params r2 = Some p2
    ∧ params empty_record = Some p0
    ∧ p2 = [("a.b", SStr "x")]
    ∧ p0 = []
    ∧ ¬ Obj.same_props p2 p0.
Proof.
  do 4 eexists. do 7 (split; [reflexivity|]).
  intros Hsame. by specialize (Hsame "a.b").
Qed.

(** The same edits on a path of one segment do restore [params]. *)
Example edit_then_clear_one_segment :
  ∃ r1 r2,
    handleChange 1 (TPath "a") (Leaf (SStr "x")) None empty_record = Some r1
    ∧ handleChange 2 (TPath "a") (Leaf SUndefined) None r1 = Some r2
    ∧ params r1 = Some [("a", SStr "x")]
    ∧ params r2 = params empty_record.
Proof. do 2 eexists. repeat split; reflexivity. Qed.

Lemma wf_root_snoc N k v :
  wf_root N = true → dot_free k = true → Obj.get k N = None →
  wf_root (N ++ [(k, Leaf v)]) = true.
Proof.
  intros Hwf Hk Hget. induction N as [|[k' c] N IH].
  - apply wf_root_cons. split; [apply not_elem_of_nil|]. by repeat split.
  - apply wf_root_cons in Hwf as (Hk' & Hd & Hc & Hwf).
    simpl in Hget. case_decide as Hne; [done|].
    simpl. apply wf_root_cons. split; [|by repeat split; auto].
    rewrite fmap_app, not_elem_of_app. split; [done|].
    simpl. rewrite list_elem_of_singleton. congruence.
Qed.

(** *** Assignment to a key of the nested form *)

Example array_index_canonical :
  array_index "10" = Some 10%N
  ∧ array_index "0" = Some 0%N
  ∧ array_index "4294967294" = Some 4294967294%N
  ∧ array_index "4294967295" = None
  ∧ array_index "01" = None
  ∧ array_index "" = None
  ∧ array_index "1e3" = None.
Proof. repeat split; reflexivity. Qed.

(** A new array index goes before the greater indices and the names, a
    new name goes last, an own key is overwritten where it is, and
    ["__proto__"] is not stored. *)
Example js_assign_order :
  let o := [("2", 20%Z); ("10", 100%Z); ("name", 1%Z)] in
  js_assign "5" 50%Z o = [("2", 20%Z); ("5", 50%Z); ("10", 100%Z); ("name", 1%Z)]
  ∧ js_assign "title" 7%Z o
    = [("2", 20%Z); ("10", 100%Z); ("name", 1%Z); ("title", 7%Z)]
  ∧ js_assign "10" 0%Z o = [("2", 20%Z); ("10", 0%Z); ("name", 1%Z)]
  ∧ js_assign "toString" 3%Z o
    = [("2", 20%Z); ("10", 100%Z); ("name", 1%Z); ("toString", 3%Z)]
  ∧ js_assign "__proto__" 9%Z o = o.
Proof. repeat split; reflexivity. Qed.

Lemma insert_index_keys {A} i k (v : A) o x :
  x ∈ Obj.keys (insert_index i k v o) ↔ x = k ∨ x ∈ Obj.keys o.
Proof.
  unfold Obj.keys. induction o as [|[k' v'] o IH]; simpl.
  - by rewrite elem_of_cons.
  - destruct (array_index k') as [j|]; [destruct (j <? i)%N|]; simpl;
      rewrite ?elem_of_cons, ?IH, ?elem_of_cons; tauto.
Qed.

Lemma obj_delete_insert_index {A} i k (v : A) o :
  Obj.delete k (insert_index i k v o) = Obj.delete k o.
Proof.
  induction o as [|[k' v'] o IH]; simpl.
  - by rewrite decide_True.
  - destruct (array_index k') as [j|]; [destruct (j <? i)%N|]; simpl;
      rewrite ?decide_True by done; [|done|done].
    case_decide; by rewrite IH.
Qed.

Lemma obj_delete_set {A} k (v : A) o :
  Obj.delete k (Obj.set k v o) = Obj.delete k o.
Proof.
  induction o as [|[k' v'] o IH]; simpl.
  - by rewrite decide_True.
  - case_decide as Hk; simpl.
    + by rewrite decide_True.
    + rewrite decide_False by done. by rewrite IH.
Qed.

Lemma obj_delete_app_snoc {A} k (v : A) o :
  Obj.delete k (o ++ [(k, v)]) = Obj.delete k o.
Proof.
  induction o as [|[k' v'] o IH]; simpl.
  - by rewrite decide_True.
  - case_decide; by rewrite IH.
Qed.

(** Whatever [o[key] = value] stored, [delete o[key]] removes it. *)
Lemma obj_delete_js_assign {A} k (v : A) o :
  Obj.delete k (js_assign k v o) = Obj.delete k o.
Proof.
  unfold js_assign. destruct (Obj.get k o); [apply obj_delete_set|].
  case_decide; [done|].
  destruct (array_index k);
    [apply obj_delete_insert_index | apply obj_delete_app_snoc].
Qed.

Lemma wf_root_insert_index i k v N :
  wf_root N = true → dot_free k = true → Obj.get k N = None →
  wf_root (insert_index i k (Leaf v) N) = true.
Proof.
  intros Hwf Hk Hget. induction N as [|[k' c] N IH].
  - apply wf_root_cons. split; [apply not_elem_of_nil|]. by repeat split.
  - assert (wf_root ((k, Leaf v) :: (k', c) :: N) = true) as Hfront.
    { apply wf_root_cons. split; [|by repeat split].
      by apply (obj_get_None k ((k', c) :: N)). }
    apply wf_root_cons in Hwf as (Hk' & Hd & Hc & Hwf).
    simpl in Hget. case_decide as Hne; [done|].
    simpl. destruct (array_index k') as [j|]; [|done].
    destruct (j <? i)%N; [|done].
    apply wf_root_cons. split; [|by repeat split; auto].
    intros [->|Hin]%insert_index_keys; [done|]. by apply Hk'.
Qed.

Lemma wf_root_js_assign N k v :
  wf_root N = true → dot_free k = true → Obj.get k N = None →
  wf_root (js_assign k (Leaf v) N) = true.
Proof.
  intros Hwf Hk Hget. unfold js_assign. rewrite Hget.
  case_decide; [done|].
  destruct (array_index k);
    [by apply wf_root_insert_index | by apply wf_root_snoc].
Qed.

(** On a path of one segment that is not a name every object inherits and
    that [params] does not hold yet, setting a scalar and clearing it again
    gives the record back: [params] has the properties of before, and
    [populated] is the object of before. What C2 states does hold where the
    key of the nested form is the path itself. *)
Lemma edit_then_clear_one_segment_path fresh1 fresh2 path v prev N :
  wf_root N = true →
  params prev = Some (toFlat N) →
  dot_free path = true →
  inherited path = false →
  Obj.get path N = None →
  entries (populated prev) !! path = None →
  scalar_truthy v = true →
  ∃ r1 r2 p2 p0,
    handleChange fresh1 (TPath path) (Leaf v) None prev = Some r1
    ∧ handleChange fresh2 (TPath path) (Leaf SUndefined) None r1 = Some r2
    ∧ params r2 = Some p2
    ∧ params prev = Some p0
    ∧ Obj.same_props p2 p0
    ∧ populated r2 = populated prev.
Proof.
  intros Hwf Hp Hdot Hinh Hget Hpop Hv.
  simpl. unfold applyFieldEdit at 1, edit_steps. rewrite Hp. simpl.
  rewrite Hv. simpl. do 2 eexists. exists (toFlat N), (toFlat N).
  split; [done|].
  unfold applyFieldEdit, edit_steps, js_in. simpl.
  rewrite bool_decide_eq_false_2 by (rewrite Hpop; by intros [? ?]).
  rewrite Hinh. simpl.
  split; [done|]. simpl.
  rewrite (toNested_toFlat N Hwf).
  rewrite toNested_toFlat by (by apply wf_root_js_assign).
  rewrite obj_delete_js_assign, obj_delete_absent by done.
  done.
Qed.

(** C6. Populated pruning: for every record (with its params defined)
    whose [populated] contains a path, a field edit that clears that path
    with an empty or falsy value yields a record whose [populated] no
    longer contains the key. *)
Theorem clear_prunes_populated fresh path value incomingRecord prev :
  is_Some (params prev) →
  is_Some (entries (populated prev) !! path) →
  nested_truthy value = false →
  ∃ r', handleChange fresh (TPath path) value incomingRecord prev = Some r'
        ∧ entries (populated r') !! path = None.
Proof.
  intros [flat Hp] Hin Hv. simpl.
  destruct (applyFieldEdit_Some fresh path value incomingRecord prev flat Hp)
    as (r' & Hr' & _ & _ & _ & Hpop).
  exists r'. split; [done|]. rewrite Hpop.
  unfold removes_entry. rewrite Hv. simpl.
  rewrite bool_decide_eq_true_2 by done. simpl.
  rewrite edit_steps_populated, Hv. simpl. apply lookup_delete_eq.
Qed.

Lemma clear_prunes_populated_witness :
  ∃ r', handleChange 5 (TPath "owner") (Leaf (SStr "")) None saved_record
        = Some r'
        ∧ entries (populated r') !! "owner" = None.
Proof.
  apply (clear_prunes_populated 5 "owner" (Leaf (SStr "")) None saved_record).
  - by eexists.
  - by eexists.
  - reflexivity.
Defined.

(** C7, at the failing input. The saved record populates ["owner"] only.
    Clearing the path ["toString"] on it removes no populated entry and
    adds none, and the entries of [populated] come out as they were; but
    [key in populatedCopy] holds, [toString] being a name every object
    inherits, so [populatedModified] is set and the returned [populated]
    is the copy, a new object, not the object of before. [errors] and [id]
    are as before. *)
Theorem field_edit_frame_inherited_name :
  ∃ r',
    handleChange 9 (TPath "toString") (Leaf SUndefined) None saved_record
    = Some r'
    ∧ errors r' = errors saved_record
    ∧ id r' = id saved_record
    ∧ entries (populated saved_record) !! "toString" = None
    ∧ removes_entry "toString" (Leaf SUndefined) saved_record = false
    ∧ adds_entry (Leaf SUndefined) None = false
    ∧ entries (populated r') = entries (populated saved_record)
    ∧ populated saved_record = Some (mkRef 2 {[ "owner" := owner_record ]})
    ∧ populated r' = Some (mkRef 9 {[ "owner" := owner_record ]})
    ∧ populated r' ≠ populated saved_record.
Proof.
  eexists. do 9 (split; [reflexivity|]). simpl. by intros [=].
Qed.

(** X21. The same happens for every name every object inherits, on
    every record: clearing it returns [populated] as a new object, at the
    fresh address, holding the entries of before without that name. *)
Theorem clear_inherited_name_copies_populated fresh path value incomingRecord
    prev :
  is_Some (params prev) →
  inherited path = true →
  nested_truthy value = false →
  ∃ r', handleChange fresh (TPath path) value incomingRecord prev = Some r'
        ∧ populated r'
          = Some (mkRef fresh (delete path (entries (populated prev)))).
Proof.
  intros [flat Hp] Hinh Hv. simpl.
  destruct (applyFieldEdit_Some fresh path value incomingRecord prev flat Hp)
    as (r' & Hr' & _ & _ & _ & Hpop).
  exists r'. split; [done|]. rewrite Hpop.
  unfold clears_inherited. rewrite Hv, Hinh. simpl. rewrite orb_true_r.
  by rewrite edit_steps_populated, Hv.
Qed.

Lemma clear_inherited_name_copies_populated_witness :
  ∃ r', handleChange 9 (TPath "constructor") (Leaf SNull) None saved_record
        = Some r'
        ∧ populated r'
          = Some (mkRef 9 (delete "constructor"
                             (entries (populated saved_record)))).
Proof.
  apply (clear_inherited_name_copies_populated 9 "constructor" (Leaf SNull)
           None saved_record).
  - by eexists.
  - reflexivity.
  - reflexivity.
Defined.

(** X19. Field-edit frame, away from the inherited names: a field edit changes
    only [params] and [populated]; [errors] and [id] are as before. Unless
    the edit clears a name every object inherits, the returned record's
    [populated] is the very object of before whenever the edit neither
    removed a populated entry (cleared a populated path) nor added one
    (stored a resolved sub-record); when it did, [populated] is a new
    object, at the fresh address, holding the modified entries. *)
Theorem field_edit_frame fresh t value incomingRecord prev :
  is_Some (params prev) →
  is_replacement t value = false →
  (∀ o, populated prev = Some o → addr o ≠ fresh) →
  ∃ r', handleChange fresh t value incomingRecord prev = Some r'
    ∧ errors r' = errors prev
    ∧ id r' = id prev
    ∧ (clears_inherited (key_of t) value = false →
       removes_entry (key_of t) value prev = false →
       adds_entry value incomingRecord = false →
       populated r' = populated prev)
    ∧ (removes_entry (key_of t) value prev = true →
       populated r'
       = Some (mkRef fresh (delete (key_of t) (entries (populated prev)))))
    ∧ (∀ ir, adds_entry value incomingRecord = true →
       incomingRecord = Some ir →
       key_of t ≠ "__proto__" →
       populated r'
       = Some (mkRef fresh (<[key_of t := ir]> (entries (populated prev)))))
    ∧ (clears_inherited (key_of t) value = false →
       populated r' = populated prev ↔
       removes_entry (key_of t) value prev = false
       ∧ adds_entry value incomingRecord = false).
Proof.
  intros [flat Hp] Hrep Hfresh.
  destruct (applyFieldEdit_Some fresh (key_of t) value incomingRecord prev
              flat Hp) as (r' & Hr' & Hid & Herr & _ & Hpop).
  exists r'. split.
  { unfold handleChange. destruct t; [done|]. by rewrite Hrep. }
  split; [done|]. split; [done|].
  rewrite edit_steps_populated in Hpop.
  assert (removes_entry (key_of t) value prev = true →
          nested_truthy value = false) as HR.
  { unfold removes_entry. by intros [?%negb_true_iff _]%andb_prop. }
  assert (adds_entry value incomingRecord = true →
          nested_truthy value = true) as HA.
  { unfold adds_entry. by intros [? _]%andb_prop. }
  assert (∀ E, Some (mkRef fresh E) ≠ populated prev) as Hnew.
  { intros E Heq. destruct (populated prev) as [o|]; [|done].
    injection Heq as <-. by destruct (Hfresh _ eq_refl). }
  destruct (removes_entry (key_of t) value prev) eqn:ER;
    destruct (adds_entry value incomingRecord) eqn:EA; simpl in Hpop.
  - rewrite (HR eq_refl) in HA. by specialize (HA eq_refl).
  - rewrite (HR eq_refl) in Hpop.
    split; [done|]. split; [done|]. split; [done|].
    intros _. split; [rewrite Hpop; intros Heq | by intros [? _]].
    by destruct (Hnew _ Heq).
  - rewrite (HA eq_refl) in Hpop.
    split; [done|]. split; [done|].
    split.
    { intros ir _ -> Hk. by rewrite js_insert_other in Hpop. }
    intros _. split; [rewrite Hpop; intros Heq | by intros [_ ?]].
    destruct incomingRecord; by destruct (Hnew _ Heq).
  - split; [intros Hc; by rewrite Hc in Hpop|].
    split; [done|]. split; [done|].
    intros Hc. by rewrite Hc in Hpop.
Qed.

Lemma field_edit_frame_witness :
  ∃ r', handleChange 9 (TPath "name") (Leaf (SStr "Carol")) None saved_record
        = Some r'
    ∧ errors r' = errors saved_record
    ∧ id r' = id saved_record
    ∧ (clears_inherited "name" (Leaf (SStr "Carol")) = false →
       removes_entry "name" (Leaf (SStr "Carol")) saved_record = false →
       adds_entry (Leaf (SStr "Carol")) None = false →
       populated r' = populated saved_record)
    ∧ (removes_entry "name" (Leaf (SStr "Carol")) saved_record = true →
       populated r'
       = Some (mkRef 9 (delete "name" (entries (populated saved_record)))))
    ∧ (∀ ir, adds_entry (Leaf (SStr "Carol")) None = true →
       None = Some ir →
       "name" ≠ "__proto__" →
       populated r'
       = Some (mkRef 9 (<["name" := ir]> (entries (populated saved_record)))))
    ∧ (clears_inherited "name" (Leaf (SStr "Carol")) = false →
       populated r' = populated saved_record ↔
       removes_entry "name" (Leaf (SStr "Carol")) saved_record = false
       ∧ adds_entry (Leaf (SStr "Carol")) None = false).
Proof.
  apply (field_edit_frame 9 (TPath "name") (Leaf (SStr "Carol")) None
           saved_record).
  - by eexists.
  - reflexivity.
  - intros o [= <-]. simpl. lia.
Defined.

(** C8. Change disambiguation: a call is a whole-record replacement,
    making the supplied record the new state as it is, exactly when no
    value is given ([value] is [undefined]), the first argument is not a
    string and the first argument carries [params]; in every other case it
    is a single-field edit at the given path. *)
Theorem change_disambiguation fresh t value incomingRecord prev :
  (is_replacement t value = true ↔
   value = Leaf SUndefined
   ∧ (∀ path, t ≠ TPath path)
   ∧ ∃ r, t = TRecord r ∧ is_Some (params r))
  ∧ (∀ r, is_replacement t value = true → t = TRecord r →
     handleChange fresh t value incomingRecord prev = Some r)
  ∧ (is_replacement t value = false →
     handleChange fresh t value incomingRecord prev
     = applyFieldEdit fresh (key_of t) value incomingRecord prev)
  ∧ (∀ path, key_of (TPath path) = path).
Proof.
  split; [|split; [|split]].
  - unfold is_replacement. rewrite !andb_true_iff. split.
    + intros [[Hv Ht] Hp]. split.
      { by destruct value as [[]|]. }
      destruct t as [path|r]; [done|]. split; [done|].
      exists r. split; [done|]. by apply bool_decide_eq_true in Hp.
    + intros (-> & _ & r & -> & Hp). simpl.
      by rewrite bool_decide_eq_true_2.
  - intros r Hrep ->. unfold handleChange. by rewrite Hrep.
  - intros Hrep. unfold handleChange. destruct t; [done|]. by rewrite Hrep.
  - done.
Qed.

Example change_with_record_replaces :
  handleChange 3 (TRecord saved_record) (Leaf SUndefined) None empty_record
  = Some saved_record.
Proof. reflexivity. Qed.

Example change_with_record_and_value_edits :
  (handleChange 3 (TRecord saved_record) (Leaf (SStr "x")) None empty_record
   ≫= params)
  = Some [("[object Object]", SStr "x")].
Proof. reflexivity. Qed.

(** ** mergeRecordResponse *)

(** C5. Merge additivity on [populated]: the merged [populated] is the
    previous one with the entries of the server record laid over it, the
    server record winning where both have a key, so a key that only the
    previous record has survives; [params] and [errors] are those of the
    server record, and [id] is the server record's if present, the
    previous one otherwise. *)
Theorem merge_populated_additive fresh previous response :
  let serverRecord := responseRecord response in
  let merged := mergeRecordResponse fresh previous response in
  (∀ k, entries (populated merged) !! k
        = match entries (populated serverRecord) !! k with
          | Some q => Some q
          | None => entries (populated previous) !! k
          end)
  ∧ (∀ k p, entries (populated previous) !! k = Some p →
            entries (populated serverRecord) !! k = None →
            entries (populated merged) !! k = Some p)
  ∧ (∀ k q, entries (populated serverRecord) !! k = Some q →
            entries (populated merged) !! k = Some q)
  ∧ params merged = params serverRecord
  ∧ errors merged = errors serverRecord
  ∧ (∀ i, id serverRecord = Some i → id merged = Some i)
  ∧ (id serverRecord = None → id merged = id previous).
Proof.
  intros serverRecord merged.
  assert (∀ k, entries (populated merged) !! k
               = match entries (populated serverRecord) !! k with
                 | Some q => Some q
                 | None => entries (populated previous) !! k
                 end) as Hlook.
  { intros k. subst merged. simpl. rewrite lookup_union.
    fold serverRecord.
    destruct (entries (populated serverRecord) !! k) as [q|]; simpl.
    - by destruct (entries (populated previous) !! k).
    - by destruct (entries (populated previous) !! k). }
  split; [done|]. split.
  { intros k p Hp Hs. by rewrite Hlook, Hs. }
  split.
  { intros k q Hs. by rewrite Hlook, Hs. }
  split; [done|]. split; [done|]. subst merged. simpl. fold serverRecord.
  split.
  - by intros i ->.
  - by intros ->.
Qed.

Example merge_keeps_owner :
  let server := mkResponse None empty_record in
  entries (populated (mergeRecordResponse 8 saved_record server)) !! "owner"
  = Some owner_record.
Proof. reflexivity. Qed.

Example merge_server_overrides :
  let q := empty_record in
  let server :=
    mkResponse None
      {| id := None; params := Some []; errors := Some ∅;
         populated := Some (mkRef 4 {[ "owner" := q ]}) |} in
  entries (populated (mergeRecordResponse 8 saved_record server)) !! "owner"
  = Some q.
Proof. reflexivity. Qed.

(** ** Progress *)

(** *** Rounding to a double

    What [binary64] returns is within half a unit in the last place of the
    quotient, and is the quotient itself where that is an integer below
    [2^53]. *)

Section Binary64.
#[local] Open Scope Z_scope.

Lemma round_half_even_spec n d :
  0 ≤ n → 0 < d →
  - d ≤ 2 * (round_half_even n d * d - n) ≤ d
  ∧ (n mod d = 0 → round_half_even n d = n / d).
Proof.
  intros Hn Hd. unfold round_half_even.
  pose proof (Z.div_mod n d ltac:(lia)) as Hdiv.
  pose proof (Z.mod_pos_bound n d Hd) as Hmod.
  set (q := n / d) in *. set (r := n mod d) in *.
  destruct (Z.ltb_spec (2 * r) d); [split; [nia | done]|].
  destruct (Z.ltb_spec d (2 * r)); [split; [nia | lia]|].
  destruct (Z.even q); (split; [nia | lia]).
Qed.

Lemma floor_log2_lt n d j :
  0 < n → 0 < d → 0 ≤ j → n < 2 ^ j * d → floor_log2 n d < j.
Proof.
  intros Hn Hd Hj Hlt. unfold floor_log2.
  pose proof (Z.log2_spec n Hn) as [Hn1 _].
  pose proof (Z.log2_spec d Hd) as [_ Hd2].
  pose proof (Z.log2_nonneg n). pose proof (Z.log2_nonneg d).
  set (a := Z.log2 n) in *. set (b := Z.log2 d) in *.
  assert (a - b ≤ j) as Hk.
  { assert (2 ^ a < 2 ^ (j + Z.succ b)) as Hpow.
    { rewrite Z.pow_add_r by lia.
      assert (0 < 2 ^ j) by (apply Z.pow_pos_nonneg; lia). nia. }
    apply Z.pow_lt_mono_r_iff in Hpow; lia. }
  destruct (Z.ltb_spec (n * 2 ^ Z.max 0 (- (a - b)))
                       (d * 2 ^ Z.max 0 (a - b))) as [_|Hge]; [lia|].
  destruct (decide (a - b = j)) as [Heq|]; [|lia].
  rewrite Heq in Hge.
  rewrite (Z.max_l 0 (- j)), (Z.max_r 0 j) in Hge by lia.
  rewrite Z.pow_0_r in Hge. lia.
Qed.

Lemma pow2_1024_big : 2 ^ 53 < 2 ^ 1024.
Proof. apply Z.pow_lt_mono_r; lia. Qed.

Lemma binary64_exact n d v :
  0 < d → n = v * d → 0 ≤ v < 2 ^ 53 →
  ∃ num den, binary64 n d = Finite num den ∧ 0 < den ∧ num = v * den.
Proof.
  intros Hd -> Hv. unfold binary64.
  destruct (Z.eqb_spec (v * d) 0) as [H0|Hne].
  { exists 0, 1. split; [done|]. split; [lia|]. nia. }
  assert (0 < v) as Hv' by nia.
  assert (floor_log2 (v * d) d < 53) as Hfl.
  { apply floor_log2_lt; [nia|done|lia|]. nia. }
  set (e := Z.max (floor_log2 (v * d) d - 52) (-1074)).
  assert (e ≤ 0) as He by lia.
  rewrite (Z.max_l 0 e), (Z.max_r 0 (- e)) by lia.
  set (s := - e). assert (0 ≤ s) as Hs by lia.
  assert (0 < 2 ^ s) as Hpow by (apply Z.pow_pos_nonneg; lia).
  rewrite Z.pow_0_r, !Z.mul_1_r.
  destruct (round_half_even_spec (v * d * 2 ^ s) d ltac:(nia) Hd) as [_ Hex].
  assert (v * d * 2 ^ s = (v * 2 ^ s) * d) as Hre by lia.
  rewrite Hre in *. rewrite Hex by (apply Z.mod_mul; lia).
  rewrite Z.div_mul by lia.
  pose proof pow2_1024_big.
  set (big := 2 ^ 1024) in *. set (lim := 2 ^ 53) in *.
  destruct (Z.ltb_spec (v * 2 ^ s) (big * 2 ^ s)) as [_|Hbad]; [|nia].
  exists (v * 2 ^ s), (2 ^ s). done.
Qed.

Lemma binary64_near n d :
  0 < n → 0 < d → n < 128 * d →
  ∃ num den,
    binary64 n d = Finite num den ∧ 0 < den
    ∧ - (d * den) ≤ 2 ^ 47 * (num * d - n * den) ≤ d * den
    ∧ ∀ h, 2 * n = h * d → 2 * num = h * den.
Proof.
  intros Hn Hd Hlt. unfold binary64.
  destruct (Z.eqb_spec n 0) as [|_]; [lia|].
  assert (floor_log2 n d < 7) as Hfl.
  { apply floor_log2_lt; [done|done|lia|]. by change (2 ^ 7) with 128. }
  set (e := Z.max (floor_log2 n d - 52) (-1074)).
  assert (e ≤ -46) as He by lia.
  rewrite (Z.max_l 0 e), (Z.max_r 0 (- e)) by lia.
  set (s := - e). assert (46 ≤ s) as Hs by lia.
  assert (2 ^ 46 ≤ 2 ^ s) as Hpow by (apply Z.pow_le_mono_r; lia).
  assert (2 ^ s = 2 * 2 ^ (s - 1)) as Hhalf.
  { rewrite <- Z.pow_succ_r by lia. f_equal. lia. }
  assert (0 < 2 ^ (s - 1)) as Hpos by (apply Z.pow_pos_nonneg; lia).
  rewrite Z.pow_0_r, !Z.mul_1_r.
  destruct (round_half_even_spec (n * 2 ^ s) d ltac:(nia) Hd) as [Hnear Hex].
  set (m := round_half_even (n * 2 ^ s) d) in *.
  pose proof pow2_1024_big.
  assert (129 ≤ 2 ^ 53) as Hlim by (change (2 ^ 53) with 9007199254740992; lia).
  change (2 ^ 46) with 70368744177664 in Hpow.
  change (2 ^ 47) with 140737488355328.
  set (big := 2 ^ 1024) in *. set (lim := 2 ^ 53) in *.
  set (P := 2 ^ s) in *. set (P' := 2 ^ (s - 1)) in *.
  destruct (Z.ltb_spec m (big * P)) as [_|Hbad]; [|nia].
  exists m, P. split; [done|]. split; [lia|]. split; [nia|].
  intros h Hh. subst m.
  assert (n * P = (h * P') * d) as Hre by nia.
  rewrite Hre in Hex |- *. rewrite Hex by (apply Z.mod_mul; lia).
  rewrite Z.div_mul by lia. lia.
Qed.

Lemma div_between a b p : 0 < b → b * p ≤ a < b * (p + 1) → a / b = p.
Proof.
  intros Hb Hp. symmetry. apply (Z.div_unique a b p (a - b * p)); lia.
Qed.

Lemma floor_log2_le n d j :
  0 < n → 0 < d → 0 ≤ j → 2 ^ j * d ≤ n → j ≤ floor_log2 n d.
Proof.
  intros Hn Hd Hj Hle. unfold floor_log2.
  pose proof (Z.log2_spec n Hn) as [_ Hn2].
  pose proof (Z.log2_spec d Hd) as [Hd1 _].
  pose proof (Z.log2_nonneg n). pose proof (Z.log2_nonneg d).
  set (a := Z.log2 n) in *. set (b := Z.log2 d) in *.
  assert (j ≤ a - b) as Hk.
  { assert (2 ^ (j + b) < 2 ^ Z.succ a) as Hpow.
    { rewrite Z.pow_add_r by lia.
      assert (0 < 2 ^ j) by (apply Z.pow_pos_nonneg; lia). nia. }
    apply Z.pow_lt_mono_r_iff in Hpow; lia. }
  destruct (Z.ltb_spec (n * 2 ^ Z.max 0 (- (a - b)))
                       (d * 2 ^ Z.max 0 (a - b))) as [Hlt|_]; [|lia].
  destruct (decide (a - b = j)) as [Heq|]; [|lia].
  rewrite Heq in Hlt.
  rewrite (Z.max_l 0 (- j)), (Z.max_r 0 j) in Hlt by lia.
  rewrite Z.pow_0_r in Hlt. lia.
Qed.

Lemma floor_log2_ge n d :
  0 < n → 0 < d → 0 ≤ floor_log2 n d → d * 2 ^ floor_log2 n d ≤ n.
Proof.
  intros Hn Hd. unfold floor_log2.
  pose proof (Z.log2_spec n Hn) as [Hn1 _].
  pose proof (Z.log2_spec d Hd) as [_ Hd2].
  pose proof (Z.log2_nonneg n). pose proof (Z.log2_nonneg d).
  set (a := Z.log2 n) in *. set (b := Z.log2 d) in *.
  destruct (Z.ltb_spec (n * 2 ^ Z.max 0 (- (a - b)))
                       (d * 2 ^ Z.max 0 (a - b))) as [_|Hge]; intros Hk.
  - assert (2 ^ a = 2 ^ Z.succ b * 2 ^ (a - b - 1)) as Hpow.
    { rewrite <- Z.pow_add_r by lia. f_equal. lia. }
    assert (0 < 2 ^ (a - b - 1)) by (apply Z.pow_pos_nonneg; lia).
    nia.
  - rewrite (Z.max_l 0 (- (a - b))), (Z.max_r 0 (a - b)) in Hge by lia.
    rewrite Z.pow_0_r in Hge. lia.
Qed.

Lemma binary64_ge_pow2 n d j :
  0 < d → 0 ≤ j → 2 ^ j * d ≤ n →
  binary64 n d = PosInf
  ∨ ∃ num den, binary64 n d = Finite num den ∧ 0 < den ∧ 2 ^ j * den ≤ num.
Proof.
  intros Hd Hj Hle.
  assert (0 < 2 ^ j) as Hpj by (apply Z.pow_pos_nonneg; lia).
  assert (0 < n) as Hn by nia.
  unfold binary64. destruct (Z.eqb_spec n 0) as [|_]; [lia|].
  pose proof (floor_log2_le n d j Hn Hd Hj Hle) as Hfl.
  pose proof (floor_log2_ge n d Hn Hd ltac:(lia)) as Hge.
  set (f := floor_log2 n d) in *.
  assert (2 ^ j ≤ 2 ^ f) as Hjf by (apply Z.pow_le_mono_r; lia).
  rewrite (Z.max_l (f - 52) (-1074)) by lia.
  set (num := round_half_even _ _ * _). set (den := 2 ^ Z.max 0 (- (f - 52))).
  assert (0 < den ∧ 2 ^ j * den ≤ num) as [Hden Hnum].
  { subst num den. destruct (Z.le_gt_cases f 52) as [Hs|Hs].
    - rewrite (Z.max_l 0 (f - 52)), (Z.max_r 0 (- (f - 52))) by lia.
      rewrite Z.pow_0_r, !Z.mul_1_r.
      assert (2 ^ 52 = 2 ^ f * 2 ^ (- (f - 52))) as Hsplit.
      { rewrite <- Z.pow_add_r by lia. f_equal. lia. }
      assert (0 < 2 ^ (- (f - 52))) as Hp by (apply Z.pow_pos_nonneg; lia).
      destruct (round_half_even_spec (n * 2 ^ (- (f - 52))) d
                  ltac:(nia) Hd) as [Hnear _].
      set (m := round_half_even _ _) in *.
      set (P := 2 ^ (- (f - 52))) in *. set (F := 2 ^ f) in *.
      set (J := 2 ^ j) in *. set (C := 2 ^ 52) in *.
      split; [done|].
      assert (d * C ≤ n * P) as H1 by nia.
      assert (C ≤ m) as H2 by nia.
      nia.
    - rewrite (Z.max_r 0 (f - 52)), (Z.max_l 0 (- (f - 52))) by lia.
      rewrite Z.pow_0_r, !Z.mul_1_r.
      assert (2 ^ f = 2 ^ 52 * 2 ^ (f - 52)) as Hsplit.
      { rewrite <- Z.pow_add_r by lia. f_equal. lia. }
      assert (0 < 2 ^ (f - 52)) as Hp by (apply Z.pow_pos_nonneg; lia).
      destruct (round_half_even_spec n (d * 2 ^ (f - 52))
                  ltac:(lia) ltac:(nia)) as [Hnear _].
      set (m := round_half_even _ _) in *.
      set (P := 2 ^ (f - 52)) in *. set (F := 2 ^ f) in *.
      set (J := 2 ^ j) in *. set (C := 2 ^ 52) in *.
      split; [lia|].
      assert (d * P * C ≤ n) as H1 by nia.
      assert (C ≤ m) as H2 by nia.
      nia. }
  destruct (num <? 2 ^ 1024 * den); [right | by left].
  by exists num, den.
Qed.

Lemma round_percent_small L T :
  (0 < T)%N → (L * 100 < 128 * T)%N → (T < 2 ^ 46)%N →
  round_percent (mkProgressEvent L T)
  = Num ((2 * (Z.of_N L * 100) + Z.of_N T) / (2 * Z.of_N T)).
Proof.
  intros HT HL Hsmall. unfold round_percent, to_double. simpl.
  set (l := Z.of_N L). set (t := Z.of_N T).
  assert (0 < t) as Ht by lia. assert (0 ≤ l ∧ l * 100 < 128 * t) as Hl by lia.
  assert (t < 70368744177664) as Hts.
  { subst t. change 70368744177664 with (Z.of_N (2 ^ 46)). lia. }
  destruct (binary64_exact l 1 l ltac:(lia) ltac:(lia)) as (ln & ld & -> & Hld & Hln).
  { change (2 ^ 53) with 9007199254740992. lia. }
  simpl.
  destruct (binary64_exact (ln * 100) ld (l * 100) Hld ltac:(lia))
    as (an & ad & -> & Had & Han).
  { change (2 ^ 53) with 9007199254740992. lia. }
  destruct (binary64_exact t 1 t ltac:(lia) ltac:(lia)) as (tn & td & -> & Htd & Htn).
  { change (2 ^ 53) with 9007199254740992. lia. }
  simpl. destruct (Z.eqb_spec tn 0) as [|_]; [nia|].
  pose proof (Z.div_mod (2 * (l * 100) + t) (2 * t) ltac:(lia)) as Hdiv.
  pose proof (Z.mod_pos_bound (2 * (l * 100) + t) (2 * t) ltac:(lia)) as Hmod.
  set (p := (2 * (l * 100) + t) / (2 * t)) in *.
  set (r := (2 * (l * 100) + t) mod (2 * t)) in *.
  destruct (decide (l = 0)) as [->|Hl0].
  { assert (an = 0) as -> by lia. simpl.
    assert (p = 0) as -> by nia. done. }
  subst an tn.
  set (c := ad * td). assert (0 < c) as Hc by nia.
  assert (l * 100 * ad * td = c * (l * 100)) as Hn by (subst c; lia).
  assert (ad * (t * td) = c * t) as Hd by (subst c; lia).
  rewrite Hn, Hd.
  destruct (binary64_near (c * (l * 100)) (c * t) ltac:(nia) ltac:(nia)
              ltac:(nia)) as (num & den & -> & Hden & Hnear & Hex).
  simpl. f_equal. change (2 ^ 47) with 140737488355328 in Hnear.
  set (D := num * t - l * 100 * den).
  assert (- (t * den) ≤ 140737488355328 * D ≤ t * den) as HD.
  { subst D. 
    assert (num * (c * t) - c * (l * 100) * den
            = c * (num * t - l * 100 * den)) as Hf by lia.
    rewrite Hf in Hnear.
    assert (c * t * den = c * (t * den)) as Hg by lia.
    rewrite Hg in Hnear.
    assert (140737488355328 * (c * (num * t - l * 100 * den))
            = c * (140737488355328 * (num * t - l * 100 * den))) as Hh by lia.
    rewrite Hh in Hnear. nia. }
  assert (t * den ≤ 70368744177663 * den) as Htd' by nia.
  assert (- den < 2 * D < den) as H2D by lia.
  apply div_between; [lia|].
  assert (2 * num * t = 2 * D + 200 * l * den) as Hnum by (subst D; lia).
  destruct (decide (200 * l = (2 * p - 1) * t)) as [Heq|Hneq].
  - specialize (Hex (2 * p - 1) ltac:(nia)). nia.
  - assert ((2 * p - 1) * t + 1 ≤ 200 * l) as Hlow by nia.
    assert (200 * l + 1 ≤ (2 * p + 1) * t) as Hup by nia.
    split; nia.
Qed.

Lemma round_percent_large L T :
  (0 < T)%N → (128 * T ≤ L * 100)%N → (L < 2 ^ 46)%N → (T < 2 ^ 46)%N →
  round_percent (mkProgressEvent L T) = Infinity
  ∨ ∃ p, round_percent (mkProgressEvent L T) = Num p ∧ 128 ≤ p.
Proof.
  intros HT HL HLs HTs. unfold round_percent, to_double. simpl.
  set (l := Z.of_N L). set (t := Z.of_N T).
  assert (0 < t) as Ht by lia. assert (128 * t ≤ l * 100) as Hl by lia.
  assert (t < 70368744177664) as Hts.
  { subst t. change 70368744177664 with (Z.of_N (2 ^ 46)). lia. }
  assert (l < 70368744177664) as Hls.
  { subst l. change 70368744177664 with (Z.of_N (2 ^ 46)). lia. }
  destruct (binary64_exact l 1 l ltac:(lia) ltac:(lia)) as (ln & ld & -> & Hld & Hln).
  { change (2 ^ 53) with 9007199254740992. lia. }
  simpl.
  destruct (binary64_exact (ln * 100) ld (l * 100) Hld ltac:(lia))
    as (an & ad & -> & Had & Han).
  { change (2 ^ 53) with 9007199254740992. lia. }
  destruct (binary64_exact t 1 t ltac:(lia) ltac:(lia)) as (tn & td & -> & Htd & Htn).
  { change (2 ^ 53) with 9007199254740992. lia. }
  simpl. destruct (Z.eqb_spec tn 0) as [|_]; [nia|].
  subst an tn.
  destruct (binary64_ge_pow2 (l * 100 * ad * td) (ad * (t * td)) 7)
    as [->|(num & den & -> & Hden & Hnum)]; [nia|lia| |by left|].
  { change (2 ^ 7) with 128. nia. }
  right. simpl. eexists. split; [done|].
  change (2 ^ 7) with 128 in Hnum.
  apply Z.div_le_lower_bound; lia.
Qed.

Lemma round_percent_zero_total L :
  (L < 2 ^ 46)%N →
  round_percent (mkProgressEvent L 0) = if (L =? 0)%N then NaN else Infinity.
Proof.
  intros HLs. destruct (N.eqb_spec L 0) as [->|HL]; [done|].
  unfold round_percent, to_double. simpl.
  set (l := Z.of_N L). assert (0 < l) as Hl by lia.
  assert (l < 70368744177664) as Hls.
  { subst l. change 70368744177664 with (Z.of_N (2 ^ 46)). lia. }
  destruct (binary64_exact l 1 l ltac:(lia) ltac:(lia)) as (ln & ld & -> & Hld & Hln).
  { change (2 ^ 53) with 9007199254740992. lia. }
  simpl.
  destruct (binary64_exact (ln * 100) ld (l * 100) Hld ltac:(lia))
    as (an & ad & -> & Had & Han).
  { change (2 ^ 53) with 9007199254740992. lia. }
  change (binary64 0 1) with (Finite 0 1). simpl.
  destruct (Z.eqb_spec an 0) as [|_]; [nia|done].
Qed.

End Binary64.

(** *** The recorded percentage *)

Lemma round_percent_Num e :
  (0 < total e)%N → (loaded e ≤ total e)%N → (total e < 2 ^ 46)%N →
  round_percent e
  = Num ((2 * (Z.of_N (loaded e) * 100) + Z.of_N (total e))
         / (2 * Z.of_N (total e)))%Z.
Proof.
  intros HT HL Hs. destruct e as [L T]. simpl in *.
  apply round_percent_small; lia.
Qed.

Lemma round_percent_nearest L T :
  (0 < T)%N → (L ≤ T)%N → (T < 2 ^ 46)%N →
  ∃ p, round_percent (mkProgressEvent L T) = Num p
       ∧ (0 ≤ p ≤ 100)%Z ∧ nearest_percent L T p.
Proof.
  intros HT HL Hs. rewrite round_percent_Num by done. simpl.
  eexists. split; [done|].
  set (a := (Z.of_N L * 100)%Z). set (b := Z.of_N T).
  assert (0 < b)%Z as Hb by lia. assert (0 ≤ a ≤ 100 * b)%Z as Ha by lia.
  pose proof (Z.div_mod (2 * a + b) (2 * b) ltac:(lia)) as Hdiv.
  pose proof (Z.mod_pos_bound (2 * a + b) (2 * b) ltac:(lia)) as Hmod.
  unfold nearest_percent. fold b.
  set (q := ((2 * a + b) / (2 * b))%Z) in *.
  set (r := ((2 * a + b) mod (2 * b))%Z) in *.
  split; [|subst a]; nia.
Qed.

Lemma recorded_progress_events T Ls w :
  recorded_progress (upload_events T Ls) w
  = (λ L, round_percent (mkProgressEvent L T)) <$> Ls.
Proof.
  revert w. induction Ls as [|L Ls IH]; intros w; [done|].
  simpl. by rewrite IH.
Qed.

(** C9, the claim as stated fails. A progress event whose total is 0
    records [NaN] (nothing loaded) or [Infinity]; one that reports more
    bytes loaded than the total records more than 100; at
    62480205385771 bytes of 82755238921551 the nearest percentage is 75
    (75.4999...), but the product and the quotient are rounded to doubles,
    the quotient comes out as 75.5, and 76 is recorded; and two events with
    non-decreasing bytes loaded but different totals record 50, then 30. *)
Lemma progress_outside_percentage :
  let w := mount None in
  let L := 62480205385771%N in
  let T := 82755238921551%N in
  progress (hook (onUploadProgress (mkProgressEvent 0 0) w)) = NaN
  ∧ progress (hook (onUploadProgress (mkProgressEvent 5 0) w)) = Infinity
  ∧ progress (hook (onUploadProgress (mkProgressEvent 3 2) w)) = Num 150
  ∧ progress (hook (onUploadProgress (mkProgressEvent L T) w)) = Num 76
  ∧ nearest_percent L T 75
  ∧ ¬ nearest_percent L T 76
  ∧ recorded_progress [mkProgressEvent 50 100; mkProgressEvent 60 200] w
    = [Num 50; Num 30]
  ∧ ¬ (∀ L T w,
         ∃ p, progress (hook (onUploadProgress (mkProgressEvent L T) w))
              = Num p
              ∧ (0 ≤ p ≤ 100)%Z ∧ nearest_percent L T p).
Proof.
  intros w L T.
  do 4 (split; [vm_compute; reflexivity|]).
  split; [unfold nearest_percent, L, T; lia|].
  split; [unfold nearest_percent, L, T; lia|].
  split; [vm_compute; reflexivity|].
  intros H. destruct (H 0%N 0%N w) as (p & Hp & _).
  vm_compute in Hp. discriminate Hp.
Qed.

(** C9, amended. For every upload event with [L] bytes loaded of a total
    of [T], where [0 < T < 2^46] and [L <= T], the recorded progress is the
    integer nearest to [L * 100 / T], between 0 and 100; over the events
    of one upload (one total [T]) with non-decreasing [L] the recorded
    values are non-decreasing; the events (25,100), (80,100), (100,100)
    record 25, 80, 100 in that order; and progress is 0 again once the
    submission has settled. *)
Theorem progress_computation :
  (∀ L T w, (0 < T)%N → (L ≤ T)%N → (T < 2 ^ 46)%N →
     ∃ p, progress (hook (onUploadProgress (mkProgressEvent L T) w)) = Num p
          ∧ (0 ≤ p ≤ 100)%Z ∧ nearest_percent L T p)
  ∧ (∀ T Ls w, (0 < T)%N → (T < 2 ^ 46)%N →
     Forall (λ L, (L ≤ T)%N) Ls → Sorted N.le Ls →
     ∃ ps, recorded_progress (upload_events T Ls) w = Num <$> ps
           ∧ Sorted Z.le ps ∧ Forall (λ p, (0 ≤ p ≤ 100)%Z) ps)
  ∧ (∀ w, recorded_progress (upload_events 100 [25; 80; 100]%N) w
          = [Num 25; Num 80; Num 100])
  ∧ (∀ o w, progress (hook (settle o w)) = Num 0).
Proof.
  split; [|split; [|split]].
  - intros L T w HT HL Hs. simpl. by apply round_percent_nearest.
  - intros T Ls w HT Hs Hle Hsorted. rewrite recorded_progress_events.
    exists ((λ L, (2 * (Z.of_N L * 100) + Z.of_N T) / (2 * Z.of_N T))%Z
              <$> Ls).
    split; [|split].
    + rewrite <- list_fmap_compose.
      apply Forall_fmap_ext_1. eapply Forall_impl; [done|].
      intros L HL. simpl.
      by rewrite (round_percent_Num (mkProgressEvent L T)).
    + eapply Sorted_fmap; [|done]. intros L1 L2 H12. simpl.
      apply Z.div_le_mono; lia.
    + apply Forall_fmap. eapply Forall_impl; [done|].
      intros L HL. simpl.
      destruct (round_percent_nearest L T HT HL Hs) as (p & Hp & Hrange & _).
      rewrite (round_percent_Num (mkProgressEvent L T)) in Hp by done.
      by injection Hp as <-.
  - intros w. vm_compute. reflexivity.
  - intros [response|] w; [|done]. unfold settle, onFulfilled.
    by destruct (notice response).
Qed.

(** Above [2^46] bytes the two roundings show: the quotients below are
    75.4999..., 99.4999... and 100.4999..., and the doubles computed for
    them are 75.5, 99.5 and 100.5. *)
Example round_percent_of_doubles :
  round_percent (mkProgressEvent 62480205385771 82755238921551) = Num 76
  ∧ round_percent (mkProgressEvent 79600000000198 80000000000199) = Num 100
  ∧ round_percent (mkProgressEvent 80400000000001 80000000000001) = Num 101
  ∧ round_percent (mkProgressEvent 1 3) = Num 33
  ∧ round_percent (mkProgressEvent 1 200) = Num 1
  ∧ round_percent (mkProgressEvent 199 200) = Num 100.
Proof. repeat split; vm_compute; reflexivity. Qed.

Example binary64_values :
  binary64 1 10 = Finite 7205759403792794 72057594037927936
  ∧ to_double 9007199254740993 = Finite 9007199254740992 1
  ∧ double_div (to_double 1) (to_double 0) = PosInf
  ∧ double_div (to_double 0) (to_double 0) = NotANumber.
Proof. repeat split; vm_compute; reflexivity. Qed.

Lemma progress_computation_witness :
  ∃ p, progress (hook (onUploadProgress (mkProgressEvent 1 3) (mount None)))
       = Num p
       ∧ (0 ≤ p ≤ 100)%Z ∧ nearest_percent 1 3 p.
Proof.
  apply (proj1 progress_computation 1%N 3%N (mount None)); lia.
Defined.

(** ** Submission *)

Section SubmissionFacts.
Variable recordToFormData : RecordJSON → FormData.

Lemma run_app evs1 evs2 w :
  run recordToFormData (evs1 ++ evs2) w
  = run recordToFormData evs1 w ≫= run recordToFormData evs2.
Proof.
  revert w. induction evs1 as [|ev evs1 IH]; intros w; [done|].
  simpl. destruct (step recordToFormData ev w) as [w'|]; [|done].
  simpl. apply IH.
Qed.

Lemma run_upload es w :
  ∃ w', run recordToFormData (UploadProgress <$> es) w = Some w'
        ∧ record (hook w') = record (hook w)
        ∧ loading (hook w') = loading (hook w)
        ∧ notices w' = notices w
        ∧ requests w' = requests w
        ∧ next_addr w' = next_addr w.
Proof.
  revert w. induction es as [|e es IH]; intros w; [by exists w|].
  simpl. destruct (IH (onUploadProgress e w)) as (w' & Hrun & H).
  exists w'. by split.
Qed.

Lemma handleSubmit_frame resourceId customParams w :
  record (hook (handleSubmit recordToFormData resourceId customParams w))
  = record (hook w)
  ∧ notices (handleSubmit recordToFormData resourceId customParams w)
    = notices w.
Proof.
  unfold handleSubmit. by destruct (truthy_string _).
Qed.

(** C4. Dispatch selection: a call to submit performs exactly one network
    operation; it is the "edit" operation addressed by the record's id
    when the id is set (defined and not empty), the "new" operation
    otherwise, and in both cases it targets the given resource. *)
Theorem submit_dispatch_selection resourceId customParams w :
  let current := record (hook w) in
  let w' := handleSubmit recordToFormData resourceId customParams w in
  ∃ call data headers,
    requests w' = requests w ++ [call]
    ∧ call_resourceId call = resourceId
    ∧ (∀ recordId, id current = Some recordId → recordId ≠ "" →
       call = recordAction resourceId recordId "edit" data headers)
    ∧ (id current = None ∨ id current = Some "" →
       call = resourceAction resourceId "new" data headers)
    ∧ record (hook w') = current
    ∧ loading (hook w') = true.
Proof.
  intros current w'. subst w'. unfold handleSubmit. fold current.
  destruct (id current) as [recordId|] eqn:Hid; simpl.
  - destruct (String.eqb_spec recordId "") as [->|Hne]; simpl.
    + do 3 eexists. split; [done|]. split; [done|].
      split; [by intros ? [= <-] ?|]. split; [done|]. done.
    + do 3 eexists. split; [done|]. split; [done|].
      split; [by intros ? [= <-] _|]. split; [|done].
      intros [?|[= ?]]; done.
  - do 3 eexists. split; [done|]. split; [done|].
    split; [done|]. split; done.
Qed.

Example create_dispatched_for_unsaved :
  requests (handleSubmit recordToFormData "users" []
              (mount (Some {| id := None;
                              params := Some [("name", SStr "Alice")];
                              errors := Some ∅;
                              populated := Some (mkRef 0 ∅) |})))
  = [resourceAction "users" "new"
       (recordToFormData {| id := None;
                            params := Some [("name", SStr "Alice")];
                            errors := Some ∅;
                            populated := Some (mkRef 0 ∅) |})
       [("Content-Type", "multipart/form-data")]].
Proof. reflexivity. Qed.

(** C3. Failure atomicity: when the promise of a submission rejects, the
    resulting state has [loading] false and [progress] 0, the record is
    the one of before the submission, and exactly one notice has been
    emitted, of type "error" and with the fixed message. *)
Theorem submit_rejected_atomic resourceId customParams es w :
  ∃ w', run recordToFormData
            (submission resourceId customParams es Rejected) w = Some w'
    ∧ loading (hook w') = false
    ∧ progress (hook w') = Num 0
    ∧ record (hook w') = record (hook w)
    ∧ notices w' = notices w ++ [errorNotice]
    ∧ type errorNotice = "error"
    ∧ message errorNotice
      = "There was an error updating record, Check out console to see more information.".
Proof.
  unfold submission.
  change (run recordToFormData
            (Submit resourceId customParams
             :: (UploadProgress <$> es) ++ [Settle Rejected]) w)
    with (run recordToFormData ((UploadProgress <$> es) ++ [Settle Rejected])
            (handleSubmit recordToFormData resourceId customParams w)).
  rewrite run_app.
  destruct (run_upload es
              (handleSubmit recordToFormData resourceId customParams w))
    as (w1 & -> & Hrec & _ & Hnot & _ & _).
  simpl. eexists. split; [done|]. simpl.
  destruct (handleSubmit_frame resourceId customParams w) as [Hr Hn].
  split; [done|]. split; [done|]. split; [by rewrite Hrec|].
  split; [|done]. by rewrite Hnot, Hn.
Qed.

(** A create that succeeds, from the unsaved record with
    [params = {name: "Alice"}] to the record the server answers. *)
Example create_then_fulfilled :
  let unsaved := {| id := None; params := Some [("name", SStr "Alice")];
                    errors := Some ∅; populated := Some (mkRef 0 ∅) |} in
  let answer := mkResponse None saved_record in
  ∃ w, run recordToFormData
           (submission "users" [] (upload_events 100 [25; 80; 100]%N)
                       (Fulfilled answer))
           (mount (Some unsaved)) = Some w
       ∧ id (record (hook w)) = Some "7"
       ∧ loading (hook w) = false
       ∧ progress (hook w) = Num 0
       ∧ notices w = [].
Proof. eexists. repeat split; reflexivity. Qed.

(** An edit that fails: one request, one notice, the record untouched. *)
Example edit_then_rejected :
  ∃ w, run recordToFormData
           (submission "users" [] (upload_events 100 [25]%N) Rejected)
           (mount (Some saved_record)) = Some w
       ∧ requests w
         = [recordAction "users" "7" "edit" (recordToFormData saved_record)
              [("Content-Type", "multipart/form-data")]]
       ∧ record (hook w) = saved_record
       ∧ notices w = [errorNotice].
Proof. eexists. repeat split; reflexivity. Qed.

End SubmissionFacts.

(** ** The shape of the record *)








(** * Part III: further properties of the handlers *)

(** ** What flattening writes *)

Lemma at_or_under_child key k p :
  at_or_under (key ++ String delimiter k) p → at_or_under key p.
Proof.
  intros [->|[rest ->]]; right.
  - by exists k.
  - exists (k ++ String delimiter rest)%string. by rewrite string_app_assoc.
Qed.

Lemma dot_free_app_delimiter k rest :
  dot_free (k ++ String delimiter rest) = false.
Proof.
  induction k as [|c k IH]; [done|].
  change (dot_free (String c (k ++ String delimiter rest)) = false).
  simpl. rewrite IH. apply andb_false_r.
Qed.

Lemma at_or_under_dot_free k key :
  dot_free key = true → at_or_under k key → key = k.
Proof.
  intros Hd [->|[rest ->]]; [done|].
  by rewrite dot_free_app_delimiter in Hd.
Qed.

Lemma at_or_under_head k p :
  dot_free k = true → at_or_under k p → hd "" (split_path p) = k.
Proof.
  intros Hd [->|[rest ->]].
  - by rewrite split_path_segment.
  - by rewrite split_path_app.
Qed.

(** Flattening a value at [key] only writes at [key] or below it. *)
Lemma flatten_node_other c : ∀ key out p,
  ¬ at_or_under key p →
  Obj.get p (flatten_node key c out) = Obj.get p out.
Proof.
  induction c as [v|kd ch IH] using nested_ind'; intros key out p Hp.
  - simpl. apply obj_get_set_ne. intros ->. apply Hp. by left.
  - simpl. revert out. induction ch as [|[k c] ch IHch]; intros out; [done|].
    apply Forall_cons in IH as [Hc IH]. cbn [foldl fst snd].
    rewrite (IHch IH). apply Hc. intros Hu. by apply Hp, (at_or_under_child _ k).
Qed.

(** What flattening leaves at a path depends on the output only through
    that path. *)
Lemma flatten_node_agree c : ∀ key o1 o2 p,
  Obj.get p o1 = Obj.get p o2 →
  Obj.get p (flatten_node key c o1) = Obj.get p (flatten_node key c o2).
Proof.
  induction c as [v|kd ch IH] using nested_ind'; intros key o1 o2 p Hp.
  - simpl. destruct (decide (key = p)) as [->|Hne].
    + by rewrite !obj_get_set_eq.
    + by rewrite !obj_get_set_ne.
  - simpl. revert o1 o2 Hp.
    induction ch as [|[k c] ch IHch]; intros o1 o2 Hp; [done|].
    apply Forall_cons in IH as [Hc IH]. cbn [foldl fst snd].
    apply (IHch IH). by apply Hc.
Qed.

#[local] Abbreviation F :=
  (λ (acc : Obj.t scalar) (kc : string * nested),
     flatten_node kc.1 kc.2 acc).

Lemma flatten_entries_agree M : ∀ a1 a2 p,
  Obj.get p a1 = Obj.get p a2 →
  Obj.get p (foldl F a1 M) = Obj.get p (foldl F a2 M).
Proof.
  induction M as [|[k c] M IH]; intros a1 a2 p Hp; [done|].
  cbn [foldl]. apply IH. by apply flatten_node_agree.
Qed.

Lemma flatten_entries_other M : ∀ acc p,
  (∀ k, k ∈ Obj.keys M → ¬ at_or_under k p) →
  Obj.get p (foldl F acc M) = Obj.get p acc.
Proof.
  induction M as [|[k c] M IH]; intros acc p Hp; [done|].
  cbn [foldl]. rewrite IH.
  - apply flatten_node_other, Hp. unfold Obj.keys. simpl. left.
  - intros k' Hk'. apply Hp. unfold Obj.keys in *. simpl. by right.
Qed.

Lemma flatten_entries_delete_frame key M : ∀ a1 a2 p,
  ¬ at_or_under key p →
  Obj.get p a1 = Obj.get p a2 →
  Obj.get p (foldl F a1 (Obj.delete key M)) = Obj.get p (foldl F a2 M).
Proof.
  induction M as [|[k' c'] M IH]; intros a1 a2 p Hp Ha; [done|].
  simpl. case_decide as Hk; subst; cbn [foldl].
  - apply IH; [done|]. simpl. by rewrite flatten_node_other.
  - apply IH; [done|]. by apply flatten_node_agree.
Qed.

Lemma flatten_entries_set_read key v M : ∀ acc,
  NoDup (Obj.keys M) →
  (∀ k, k ∈ Obj.keys M → dot_free k = true) →
  Obj.get key (foldl F acc (Obj.set key (Leaf v) M)) = Some v.
Proof.
  unfold Obj.keys.
  induction M as [|[k' c'] M IH]; intros acc Hnd Hdf.
  - simpl. apply obj_get_set_eq.
  - simpl in *. apply NoDup_cons in Hnd as [Hk' Hnd].
    case_decide as Hk; subst; cbn [foldl].
    + rewrite flatten_entries_other.
      * simpl. apply obj_get_set_eq.
      * intros k Hk Hu.
        assert (dot_free k' = true) as Hd by (apply Hdf; left).
        apply at_or_under_dot_free in Hu; [|done]. by subst.
    + apply IH; [done|]. intros k Hin. apply Hdf. by right.
Qed.

(** An assignment to a key changes nothing away from that key. *)
Lemma flatten_entries_assign_frame key c M a1 a2 p :
  ¬ at_or_under key p →
  Obj.get p a1 = Obj.get p a2 →
  Obj.get p (foldl F a1 (js_assign key c M)) = Obj.get p (foldl F a2 M).
Proof.
  intros Hp Ha.
  rewrite <- (flatten_entries_delete_frame key (js_assign key c M) a1 a1 p)
    by done.
  rewrite obj_delete_js_assign. by apply flatten_entries_delete_frame.
Qed.

Lemma flatten_entries_insert_read i key v M : ∀ acc,
  dot_free key = true →
  key ∉ Obj.keys M →
  Obj.get key (foldl F acc (insert_index i key (Leaf v) M)) = Some v.
Proof.
  assert (∀ (rest : Obj.t nested) acc, key ∉ Obj.keys rest →
            dot_free key = true →
            Obj.get key (foldl F acc ((key, Leaf v) :: rest)) = Some v)
    as Hfront.
  { intros rest acc Hnot Hd. cbn [foldl]. rewrite flatten_entries_other.
    - simpl. apply obj_get_set_eq.
    - intros k Hk Hu. apply at_or_under_dot_free in Hu; [|done]. by subst. }
  unfold Obj.keys in *.
  induction M as [|[k' c'] M IH]; intros acc Hd Hnot.
  - simpl. apply obj_get_set_eq.
  - simpl. destruct (array_index k') as [j|]; [destruct (j <? i)%N|];
      [|by apply Hfront..].
    cbn [foldl]. apply IH; [done|].
    simpl in Hnot. by apply not_elem_of_cons in Hnot as [_ ?].
Qed.

Lemma array_index_dot_free key i :
  array_index key = Some i → dot_free key = true.
Proof.
  unfold array_index. destruct (is_index key) eqn:Hi; [|done].
  intros _. by apply is_index_dot_free.
Qed.

(** Reading back an assignment, at any key but ["__proto__"]. *)
Lemma flatten_entries_assign_read key v M acc :
  key ≠ "__proto__" →
  NoDup (Obj.keys M) →
  (∀ k, k ∈ Obj.keys M → dot_free k = true) →
  Obj.get key (foldl F acc (js_assign key (Leaf v) M)) = Some v.
Proof.
  intros Hk Hnd Hdf. unfold js_assign.
  destruct (Obj.get key M) eqn:Hget.
  { by apply flatten_entries_set_read. }
  rewrite decide_False by done.
  destruct (array_index key) as [i|] eqn:Hi.
  - apply flatten_entries_insert_read.
    + by eapply array_index_dot_free.
    + by apply obj_get_None.
  - rewrite <- obj_set_fresh by done. by apply flatten_entries_set_read.
Qed.

(** ** The keys of an unflattened mapping *)

Lemma obj_set_NoDup {A} k (v : A) o :
  NoDup (Obj.keys o) → NoDup (Obj.keys (Obj.set k v o)).
Proof.
  unfold Obj.keys. induction o as [|[k' v'] o IH]; simpl.
  - intros _. apply NoDup_singleton.
  - intros [Hk' Hnd]%NoDup_cons. case_decide; subst; simpl.
    + by apply NoDup_cons.
    + apply NoDup_cons. split; [|by apply IH].
      intros [->|Hin]%(obj_keys_set k v o); [done|]. by apply Hk'.
Qed.

Lemma set_path_NoDup segs v o :
  NoDup (Obj.keys o) → NoDup (Obj.keys (set_path segs v o)).
Proof.
  intros Hnd. destruct segs as [|k [|k2 rest]]; simpl; [done| |].
  - by apply obj_set_NoDup.
  - destruct (Obj.get k o) as [[?|kd sub]|]; [done| |];
      by apply obj_set_NoDup.
Qed.

Lemma toNested_NoDup flat : NoDup (Obj.keys (toNested flat)).
Proof.
  unfold toNested.
  assert (∀ acc : Obj.t nested, NoDup (Obj.keys acc) →
            NoDup (Obj.keys
                     (foldl (λ acc pv, set_path (split_path pv.1) pv.2 acc)
                            acc flat))) as Hgen.
  { induction flat as [|[p v] flat IH]; intros acc Hacc; [done|].
    simpl. apply IH. by apply set_path_NoDup. }
  apply Hgen. apply NoDup_nil_2.
Qed.

Lemma obj_keys_delete {A} k (o : Obj.t A) x :
  x ∈ Obj.keys (Obj.delete k o) → x ≠ k ∧ x ∈ Obj.keys o.
Proof.
  unfold Obj.keys. induction o as [|[k' v'] o IH]; simpl.
  - intros H. by apply elem_of_nil in H.
  - case_decide; subst.
    + intros [? ?]%IH. split; [done | by right].
    + intros [->|Hx]%elem_of_cons; [split; [done | by left]|].
      destruct (IH Hx). split; [done | by right].
Qed.

(** ** Field edits and the paths of params *)

Lemma applyFieldEdit_params fresh key value incomingRecord prev flat :
  params prev = Some flat →
  ∃ r', applyFieldEdit fresh key value incomingRecord prev = Some r'
        ∧ id r' = id prev
        ∧ errors r' = errors prev
        ∧ params r'
          = Some (toFlat (if nested_truthy value
                          then js_assign key value (toNested flat)
                          else Obj.delete key (toNested flat))).
Proof.
  intros Hp. unfold applyFieldEdit, edit_steps. rewrite Hp. simpl.
  destruct (nested_truthy value); simpl.
  - destruct incomingRecord; by eexists.
  - destruct (js_in _ _); by eexists.
Qed.

(** X7. Reading back what an edit wrote: after a field edit that sets a
    truthy scalar at a path other than ["__proto__"], [params] holds that
    scalar at that path, whether the path has one segment or several. *)
Theorem field_edit_set_then_read fresh path v incomingRecord prev :
  is_Some (params prev) →
  scalar_truthy v = true →
  path ≠ "__proto__" →
  ∃ r' flat',
    handleChange fresh (TPath path) (Leaf v) incomingRecord prev = Some r'
    ∧ params r' = Some flat'
    ∧ Obj.get path flat' = Some v.
Proof.
  intros [flat Hp] Hv Hpath. simpl.
  destruct (applyFieldEdit_params fresh path (Leaf v) incomingRecord prev
              flat Hp) as (r' & Hr' & _ & _ & Hpar).
  simpl in Hpar. rewrite Hv in Hpar.
  exists r'. eexists. split; [done|]. split; [done|].
  unfold toFlat. apply flatten_entries_assign_read; [done| |].
  - apply toNested_NoDup.
  - apply toNested_keys_dot_free.
Qed.

Lemma field_edit_set_then_read_witness :
  ∃ r' flat',
    handleChange 3 (TPath "address.city") (Leaf (SStr "Oslo")) None
                 saved_record = Some r'
    ∧ params r' = Some flat'
    ∧ Obj.get "address.city" flat' = Some (SStr "Oslo").
Proof.
  apply (field_edit_set_then_read 3 "address.city" (SStr "Oslo") None
           saved_record).
  - by eexists.
  - reflexivity.
  - discriminate.
Defined.

(** X20. Setting ["__proto__"], where neither the nested form of
    [params] nor [populated] has it as an own key, stores nothing: both
    assignments go to the setter every object inherits, which creates no
    property, so [params] comes out as the flattening of what it unflattens
    to and [populated] with the entries of before. *)
Theorem field_edit_set_proto_stores_nothing fresh v incomingRecord prev flat :
  params prev = Some flat →
  scalar_truthy v = true →
  Obj.get "__proto__" (toNested flat) = None →
  entries (populated prev) !! "__proto__" = None →
  ∃ r',
    handleChange fresh (TPath "__proto__") (Leaf v) incomingRecord prev
    = Some r'
    ∧ params r' = Some (toFlat (toNested flat))
    ∧ entries (populated r') = entries (populated prev).
Proof.
  intros Hp Hv Hget Hq. simpl.
  destruct (applyFieldEdit_Some fresh "__proto__" (Leaf v) incomingRecord
              prev flat Hp) as (r' & Hr' & _ & _ & _ & Hpop).
  destruct (applyFieldEdit_params fresh "__proto__" (Leaf v) incomingRecord
              prev flat Hp) as (r'' & Hr'' & _ & _ & Hpar).
  rewrite Hr' in Hr''. injection Hr'' as <-.
  exists r'. split; [done|]. split.
  - rewrite Hpar. simpl. rewrite Hv. unfold js_assign. by rewrite Hget.
  - rewrite Hpop, edit_steps_populated. simpl. rewrite Hv.
    unfold removes_entry, adds_entry, clears_inherited. simpl.
    rewrite Hv. simpl.
    destruct incomingRecord as [ir|]; simpl; [|done].
    unfold js_insert. by rewrite Hq.
Qed.

Lemma field_edit_set_proto_stores_nothing_witness :
  ∃ r',
    handleChange 3 (TPath "__proto__") (Leaf (SStr "x")) (Some owner_record)
                 saved_record = Some r'
    ∧ params r' = Some (toFlat (toNested [("name", SStr "Alice")]))
    ∧ entries (populated r') = entries (populated saved_record).
Proof.
  apply (field_edit_set_proto_stores_nothing 3 (SStr "x") (Some owner_record)
           saved_record [("name", SStr "Alice")]); reflexivity.
Defined.

(** X8. Clearing removes the whole subtree: after a field edit that
    clears a one-segment path with any falsy value ([undefined], [null],
    [false], [0] or the empty string), [params] holds nothing at that path
    nor below it. *)
Theorem field_edit_clear_removes_subtree fresh path value incomingRecord prev :
  is_Some (params prev) →
  dot_free path = true →
  nested_truthy value = false →
  ∃ r' flat',
    handleChange fresh (TPath path) value incomingRecord prev = Some r'
    ∧ params r' = Some flat'
    ∧ ∀ p, at_or_under path p → Obj.get p flat' = None.
Proof.
  intros [flat Hp] Hd Hv. simpl.
  destruct (applyFieldEdit_params fresh path value incomingRecord prev
              flat Hp) as (r' & Hr' & _ & _ & Hpar).
  rewrite Hv in Hpar.
  exists r'. eexists. split; [done|]. split; [done|].
  intros p Hu. unfold toFlat. rewrite flatten_entries_other; [done|].
  intros k [Hne Hk]%obj_keys_delete Hku.
  apply toNested_keys_dot_free in Hk.
  apply Hne. rewrite <- (at_or_under_head k p Hk Hku).
  by apply at_or_under_head.
Qed.

Lemma field_edit_clear_removes_subtree_witness :
  ∃ r' flat',
    handleChange 3 (TPath "name") (Leaf (SNum 0)) None saved_record = Some r'
    ∧ params r' = Some flat'
    ∧ ∀ p, at_or_under "name" p → Obj.get p flat' = None.
Proof.
  apply (field_edit_clear_removes_subtree 3 "name" (Leaf (SNum 0)) None
           saved_record).
  - by eexists.
  - reflexivity.
  - reflexivity.
Defined.

(** X9. A field edit leaves the other paths alone: whatever the key and
    the value, at every path that is neither the key nor below it the new
    [params] holds what the previous [params] holds once unflattened and
    flattened again, and so what the previous [params] holds when it is
    the flattening of a well-formed structure. *)
Theorem field_edit_params_frame fresh key value incomingRecord prev p :
  is_Some (params prev) →
  ¬ at_or_under key p →
  ∃ r' flat flat',
    handleChange fresh (TPath key) value incomingRecord prev = Some r'
    ∧ params prev = Some flat
    ∧ params r' = Some flat'
    ∧ Obj.get p flat' = Obj.get p (toFlat (toNested flat))
    ∧ ∀ N, wf_root N = true → flat = toFlat N →
           Obj.get p flat' = Obj.get p flat.
Proof.
  intros [flat Hp] Hu. simpl.
  destruct (applyFieldEdit_params fresh key value incomingRecord prev
              flat Hp) as (r' & Hr' & _ & _ & Hpar).
  exists r', flat. eexists. split; [done|]. split; [done|]. split; [done|].
  assert (Obj.get p
            (toFlat (if nested_truthy value
                     then js_assign key value (toNested flat)
                     else Obj.delete key (toNested flat)))
          = Obj.get p (toFlat (toNested flat))) as Hframe.
  { unfold toFlat. destruct (nested_truthy value).
    - by apply flatten_entries_assign_frame.
    - by apply flatten_entries_delete_frame. }
  split; [done|]. intros N Hwf ->. rewrite Hframe.
  by rewrite toNested_toFlat.
Qed.

Lemma field_edit_params_frame_witness :
  ∃ r' flat flat',
    handleChange 3 (TPath "title") (Leaf (SStr "Dr")) None saved_record
    = Some r'
    ∧ params saved_record = Some flat
    ∧ params r' = Some flat'
    ∧ Obj.get "name" flat' = Obj.get "name" (toFlat (toNested flat))
    ∧ ∀ N, wf_root N = true → flat = toFlat N →
           Obj.get "name" flat' = Obj.get "name" flat.
Proof.
  apply (field_edit_params_frame 3 "title" (Leaf (SStr "Dr")) None
           saved_record "name").
  - by eexists.
  - intros [H|[rest H]]; discriminate H.
Defined.

(** X11. A record handed over together with a value is not installed:
    the call is a field edit whose key is the record converted to a
    string, so the value lands in [params] under ["[object Object]"],
    and [id] and [errors] stay those of the previous record. *)
Theorem record_with_value_writes_object_key fresh r v incomingRecord prev :
  is_Some (params prev) →
  scalar_truthy v = true →
  ∃ r' flat',
    handleChange fresh (TRecord r) (Leaf v) incomingRecord prev = Some r'
    ∧ params r' = Some flat'
    ∧ Obj.get "[object Object]" flat' = Some v
    ∧ id r' = id prev
    ∧ errors r' = errors prev.
Proof.
  intros [flat Hp] Hv.
  assert (is_replacement (TRecord r) (Leaf v) = false) as Hrep.
  { unfold is_replacement. by destruct v. }
  unfold handleChange. rewrite Hrep. simpl.
  destruct (applyFieldEdit_params fresh "[object Object]" (Leaf v)
              incomingRecord prev flat Hp) as (r' & Hr' & Hid & Herr & Hpar).
  simpl in Hpar. rewrite Hv in Hpar.
  exists r'. eexists. split; [done|]. split; [done|].
  split; [|done]. unfold toFlat.
  apply flatten_entries_assign_read; [done| |].
  - apply toNested_NoDup.
  - apply toNested_keys_dot_free.
Qed.

Lemma record_with_value_writes_object_key_witness :
  ∃ r' flat',
    handleChange 3 (TRecord owner_record) (Leaf (SStr "x")) None saved_record
    = Some r'
    ∧ params r' = Some flat'
    ∧ Obj.get "[object Object]" flat' = Some (SStr "x")
    ∧ id r' = id saved_record
    ∧ errors r' = errors saved_record.
Proof.
  apply (record_with_value_writes_object_key 3 owner_record (SStr "x") None
           saved_record).
  - by eexists.
  - reflexivity.
Defined.

(** X10. Populating and clearing: a field edit that sets a value with a
    resolved sub-record stores it in [populated] at the path (at any path
    but ["__proto__"]), and one that then clears the same path leaves
    [populated] without that path and otherwise as it was, so with the
    entries of before when the path was not populated. This holds for
    paths of any number of segments. *)
Theorem populate_then_clear fresh1 fresh2 path value cleared ir prev :
  is_Some (params prev) →
  nested_truthy value = true →
  nested_truthy cleared = false →
  ∃ r1 r2,
    handleChange fresh1 (TPath path) value (Some ir) prev = Some r1
    ∧ (path ≠ "__proto__" → entries (populated r1) !! path = Some ir)
    ∧ handleChange fresh2 (TPath path) cleared None r1 = Some r2
    ∧ entries (populated r2) = delete path (entries (populated prev))
    ∧ (entries (populated prev) !! path = None →
       entries (populated r2) = entries (populated prev)).
Proof.
  intros [flat Hp] Hv Hc. simpl.
  destruct (applyFieldEdit_Some fresh1 path value (Some ir) prev flat Hp)
    as (r1 & Hr1 & _ & _ & [flat1 Hp1] & Hpop1).
  rewrite edit_steps_populated, Hv in Hpop1.
  unfold adds_entry in Hpop1. rewrite Hv in Hpop1. simpl in Hpop1.
  rewrite orb_true_r in Hpop1. simpl in Hpop1.
  destruct (applyFieldEdit_Some fresh2 path cleared None r1 flat1 Hp1)
    as (r2 & Hr2 & _ & _ & _ & Hpop2).
  rewrite edit_steps_populated, Hc in Hpop2.
  assert (removes_entry path cleared r1 || adds_entry cleared None
          || clears_inherited path cleared = true) as Hflag.
  { unfold removes_entry, adds_entry, clears_inherited.
    rewrite Hc, Hpop1. simpl. rewrite orb_false_r.
    unfold js_insert. destruct (decide (path = "__proto__")) as [->|Hne].
    - rewrite inherited_proto. apply orb_true_r.
    - rewrite (bool_decide_eq_false_2 _ Hne). simpl.
      rewrite bool_decide_eq_true_2; [done|].
      rewrite lookup_insert_eq. by eexists. }
  rewrite Hflag in Hpop2.
  exists r1, r2. split; [done|]. split.
  { intros Hne. rewrite Hpop1. simpl. rewrite js_insert_other by done.
    apply lookup_insert_eq. }
  split; [done|].
  assert (entries (populated r2) = delete path (entries (populated prev)))
    as Hres.
  { rewrite Hpop2, Hpop1. simpl. unfold js_insert.
    destruct (_ && _); [done | apply delete_insert_eq]. }
  split; [done|]. intros Hnone. rewrite Hres. by apply delete_id.
Qed.

Lemma populate_then_clear_witness :
  ∃ r1 r2,
    handleChange 5 (TPath "author.id") (Leaf (SStr "42")) (Some owner_record)
                 empty_record = Some r1
    ∧ ("author.id" ≠ "__proto__" →
       entries (populated r1) !! "author.id" = Some owner_record)
    ∧ handleChange 6 (TPath "author.id") (Leaf SUndefined) None r1 = Some r2
    ∧ entries (populated r2)
      = delete "author.id" (entries (populated empty_record))
    ∧ (entries (populated empty_record) !! "author.id" = None →
       entries (populated r2) = entries (populated empty_record)).
Proof.
  apply (populate_then_clear 5 6 "author.id" (Leaf (SStr "42"))
           (Leaf SUndefined) owner_record empty_record).
  - by eexists.
  - reflexivity.
  - reflexivity.
Defined.

(** ** Progress values *)

(** Below [2^46] bytes the recorded value is a given percentage below
    128 exactly when that percentage is the nearest one. *)
Lemma round_percent_unique L T k :
  (0 < T)%N → (T < 2 ^ 46)%N → (L < 2 ^ 46)%N → (k < 128)%Z →
  round_percent (mkProgressEvent L T) = Num k ↔ nearest_percent L T k.
Proof.
  intros HT HTs HLs Hk.
  destruct (N.lt_ge_cases (L * 100) (128 * T)) as [Hlt|Hge].
  - rewrite round_percent_small by done.
    unfold nearest_percent.
    set (a := Z.of_N L). set (b := Z.of_N T).
    assert (0 < b)%Z as Hb by lia.
    pose proof (Z.div_mod (2 * (a * 100) + b) (2 * b) ltac:(lia)) as Hdiv.
    pose proof (Z.mod_pos_bound (2 * (a * 100) + b) (2 * b) ltac:(lia))
      as Hmod.
    set (q := ((2 * (a * 100) + b) / (2 * b))%Z) in *.
    set (r := ((2 * (a * 100) + b) mod (2 * b))%Z) in *.
    split.
    + intros [= <-]. nia.
    + intros Hn. f_equal. nia.
  - split.
    + intros Hp.
      destruct (round_percent_large L T HT Hge HLs HTs)
        as [Hinf|(p & Hp' & Hbig)]; [congruence|].
      rewrite Hp in Hp'. injection Hp' as <-. lia.
    + unfold nearest_percent. intros Hn. nia.
Qed.

(** X5. Where the percentage turns: for byte counts below [2^46] and a
    positive total, the recorded progress is 100 exactly from 99.5 % of
    the total on (and below 100.5 %), and 0 exactly below 0.5 %. *)
Theorem progress_thresholds L T w :
  (0 < T)%N → (T < 2 ^ 46)%N → (L < 2 ^ 46)%N →
  (progress (hook (onUploadProgress (mkProgressEvent L T) w)) = Num 100 ↔
   (199 * T ≤ 200 * L < 201 * T)%N)
  ∧ (progress (hook (onUploadProgress (mkProgressEvent L T) w)) = Num 0 ↔
     (200 * L < T)%N).
Proof.
  intros HT HTs HLs. simpl. rewrite !round_percent_unique by (done || lia).
  unfold nearest_percent. split; lia.
Qed.

Lemma progress_thresholds_witness :
  (progress (hook (onUploadProgress (mkProgressEvent 995 1000)
                     (mount None))) = Num 100 ↔
   (199 * 1000 ≤ 200 * 995 < 201 * 1000)%N)
  ∧ (progress (hook (onUploadProgress (mkProgressEvent 995 1000)
                       (mount None))) = Num 0 ↔
     (200 * 995 < 1000)%N).
Proof.
  apply (progress_thresholds 995 1000 (mount None)); reflexivity.
Defined.

(** X6. When the progress is a percentage: for byte counts below [2^46],
    the value recorded for an upload event is a number between 0 and 100
    exactly when the total is positive and the bytes loaded stay below
    100.5 % of it; with a total of 0 it is [NaN] or [Infinity]. *)
Theorem progress_in_range_iff e w :
  (total e < 2 ^ 46)%N → (loaded e < 2 ^ 46)%N →
  ((∃ p, progress (hook (onUploadProgress e w)) = Num p ∧ (0 ≤ p ≤ 100)%Z)
   ↔ (0 < total e)%N ∧ (200 * loaded e < 201 * total e)%N)
  ∧ (total e = 0%N →
     progress (hook (onUploadProgress e w))
     = if (loaded e =? 0)%N then NaN else Infinity).
Proof.
  destruct e as [L T]. simpl. intros HTs HLs. split.
  - destruct (decide (T = 0%N)) as [->|HT].
    + split; [|lia]. intros (p & Hp & _).
      rewrite round_percent_zero_total in Hp by done.
      by destruct (L =? 0)%N.
    + assert (0 < T)%N as HT' by lia. split.
      * intros (p & Hp & Hr). split; [done|].
        apply round_percent_unique in Hp; [|done || lia..].
        unfold nearest_percent in Hp. nia.
      * intros [_ HL].
        assert (L * 100 < 128 * T)%N as Hlt by lia.
        exists ((2 * (Z.of_N L * 100) + Z.of_N T) / (2 * Z.of_N T))%Z.
        split; [by apply round_percent_small|].
        split.
        { apply Z.div_pos; lia. }
        apply Z.lt_succ_r, Z.div_lt_upper_bound; lia.
  - intros ->. by apply round_percent_zero_total.
Qed.

Lemma progress_in_range_iff_witness :
  ((∃ p, progress (hook (onUploadProgress (mkProgressEvent 5 10)
                           (mount None))) = Num p
         ∧ (0 ≤ p ≤ 100)%Z)
   ↔ (0 < 10)%N ∧ (200 * 5 < 201 * 10)%N)
  ∧ (10%N = 0%N →
     progress (hook (onUploadProgress (mkProgressEvent 5 10) (mount None)))
     = if (5 =? 0)%N then NaN else Infinity).
Proof.
  apply (progress_in_range_iff (mkProgressEvent 5 10) (mount None));
    reflexivity.
Defined.

Section SubmissionMore.
Variable recordToFormData : RecordJSON → FormData.

Lemma run_upload_progress es : ∀ w,
  ∃ w', run recordToFormData (UploadProgress <$> es) w = Some w'
        ∧ progress (hook w')
          = match last es with
            | Some e => round_percent e
            | None => progress (hook w)
            end.
Proof.
  induction es as [|e es IH]; intros w; [by exists w|].
  simpl. destruct (IH (onUploadProgress e w)) as (w' & Hrun & Hprog).
  exists w'. split; [done|]. rewrite Hprog, last_cons.
  by destruct (last es).
Qed.

(** X4. The last upload event decides: after any sequence of upload
    events the progress is the percentage of the last event, whatever the
    earlier ones were (nothing keeps it from going down), and it is
    untouched when there was no event. *)
Theorem progress_last_event es w :
  ∃ w', run recordToFormData (UploadProgress <$> es) w = Some w'
        ∧ progress (hook w')
          = match last es with
            | Some e => round_percent e
            | None => progress (hook w)
            end
        ∧ record (hook w') = record (hook w)
        ∧ loading (hook w') = loading (hook w).
Proof.
  destruct (run_upload_progress es w) as (w' & Hrun & Hprog).
  destruct (run_upload recordToFormData es w)
    as (w'' & Hrun' & Hrec & Hload & _).
  rewrite Hrun in Hrun'. injection Hrun' as <-.
  exists w'. by repeat split.
Qed.

(** X2. In flight: between the call to submit and the settlement,
    whatever upload events arrive, [loading] is true, the record and the
    notices are those of before, and one request has been made. Submitting
    does not reset the progress: without upload events it is what it was. *)
Theorem submit_in_flight resourceId customParams es w :
  ∃ w' call,
    run recordToFormData
        (Submit resourceId customParams :: (UploadProgress <$> es)) w
    = Some w'
    ∧ loading (hook w') = true
    ∧ record (hook w') = record (hook w)
    ∧ notices w' = notices w
    ∧ requests w' = requests w ++ [call]
    ∧ progress (hook w')
      = match last es with
        | Some e => round_percent e
        | None => progress (hook w)
        end.
Proof.
  change (run recordToFormData
            (Submit resourceId customParams :: (UploadProgress <$> es)) w)
    with (run recordToFormData (UploadProgress <$> es)
            (handleSubmit recordToFormData resourceId customParams w)).
  set (w0 := handleSubmit recordToFormData resourceId customParams w).
  destruct (run_upload_progress es w0) as (w' & Hrun & Hprog).
  destruct (run_upload recordToFormData es w0)
    as (w'' & Hrun' & Hrec & Hload & Hnot & Hreq & _).
  rewrite Hrun in Hrun'. injection Hrun' as <-.
  destruct (handleSubmit_frame recordToFormData resourceId customParams w)
    as [Hr Hn].
  assert (loading (hook w0) = true ∧ progress (hook w0) = progress (hook w)
          ∧ ∃ call, requests w0 = requests w ++ [call])
    as (Hl0 & Hp0 & call & Hq0).
  { subst w0. unfold handleSubmit.
    destruct (truthy_string _); simpl; by eauto. }
  exists w', call. split; [done|].
  split; [by rewrite Hload|]. split; [by rewrite Hrec|].
  split; [by rewrite Hnot|]. split; [by rewrite Hreq|].
  rewrite Hprog. by destruct (last es).
Qed.

Lemma handleSubmit_call resourceId customParams w :
  ∃ call,
    handleSubmit recordToFormData resourceId customParams w
    = call_api call (setLoading true w)
    ∧ call_resourceId call = resourceId.
Proof.
  unfold handleSubmit. destruct (truthy_string _); by eexists.
Qed.

Lemma submission_fulfilled_state resourceId customParams es response w :
  ∃ w' call,
    run recordToFormData
        (submission resourceId customParams es (Fulfilled response)) w
    = Some w'
    ∧ record (hook w')
      = mergeRecordResponse (next_addr w) (record (hook w)) response
    ∧ requests w' = requests w ++ [call].
Proof.
  unfold submission.
  change (run recordToFormData
            (Submit resourceId customParams
             :: (UploadProgress <$> es) ++ [Settle (Fulfilled response)]) w)
    with (run recordToFormData
            ((UploadProgress <$> es) ++ [Settle (Fulfilled response)])
            (handleSubmit recordToFormData resourceId customParams w)).
  destruct (handleSubmit_call resourceId customParams w)
    as (call & Hcall & _).
  rewrite run_app.
  destruct (run_upload recordToFormData es
              (handleSubmit recordToFormData resourceId customParams w))
    as (w1 & -> & Hrec & _ & _ & Hreq & Haddr).
  rewrite Hcall in Hrec, Hreq, Haddr. simpl in *.
  eexists. exists call. split; [done|].
  unfold onFulfilled.
  destruct (notice response); simpl; by rewrite Hrec, Hreq, Haddr.
Qed.

(** X1. Success: when the promise of a submission fulfils, whatever
    upload events came before, [loading] is false, [progress] is 0, the
    record is the merge of the record of before with the response, the
    notice of the response has been forwarded if there is one and nothing
    else, and one request has been made. *)
Theorem submit_fulfilled_outcome resourceId customParams es response w :
  ∃ w' call,
    run recordToFormData
        (submission resourceId customParams es (Fulfilled response)) w
    = Some w'
    ∧ loading (hook w') = false
    ∧ progress (hook w') = Num 0
    ∧ record (hook w')
      = mergeRecordResponse (next_addr w) (record (hook w)) response
    ∧ notices w' = notices w ++ emitted (Settle (Fulfilled response))
    ∧ requests w' = requests w ++ [call].
Proof.
  unfold submission.
  change (run recordToFormData
            (Submit resourceId customParams
             :: (UploadProgress <$> es) ++ [Settle (Fulfilled response)]) w)
    with (run recordToFormData
            ((UploadProgress <$> es) ++ [Settle (Fulfilled response)])
            (handleSubmit recordToFormData resourceId customParams w)).
  set (w0 := handleSubmit recordToFormData resourceId customParams w).
  rewrite run_app.
  destruct (run_upload recordToFormData es w0)
    as (w1 & -> & Hrec & _ & Hnot & Hreq & Haddr).
  destruct (handleSubmit_frame recordToFormData resourceId customParams w)
    as [Hr Hn].
  assert (next_addr w0 = next_addr w
          ∧ ∃ call, requests w0 = requests w ++ [call])
    as (Ha0 & call & Hq0).
  { subst w0. unfold handleSubmit.
    destruct (truthy_string _); simpl; by eauto. }
  fold w0 in Hr, Hn.
  simpl. eexists. exists call. split; [done|].
  unfold onFulfilled.
  destruct (notice response) as [n|]; simpl.
  - rewrite Hrec, Hnot, Hreq, Haddr, Ha0, Hq0, Hr, Hn.
    by repeat split.
  - rewrite Hrec, Hnot, Hreq, Haddr, Ha0, Hq0, Hr, Hn.
    rewrite app_nil_r. by repeat split.
Qed.


(** X15. Create, then update: after a submission that the server
    answers with a record carrying a non-empty id, the next submission is
    an "edit" addressed by that id, whatever the record was before. *)
Theorem create_then_update resourceId custom1 custom2 es response i w :
  id (responseRecord response) = Some i →
  i ≠ "" →
  ∃ w' call data headers,
    run recordToFormData
        (submission resourceId custom1 es (Fulfilled response)
         ++ [Submit resourceId custom2]) w
    = Some w'
    ∧ requests w'
      = requests w ++ [call; recordAction resourceId i "edit" data headers]
    ∧ loading (hook w') = true.
Proof.
  intros Hid Hi. rewrite run_app.
  destruct (submission_fulfilled_state resourceId custom1 es response w)
    as (w1 & call & -> & Hrec & Hreq).
  simpl. eexists. exists call. unfold handleSubmit.
  rewrite Hrec. simpl. rewrite Hid. simpl.
  destruct (String.eqb_spec i "") as [|_]; [done|]. simpl.
  do 2 eexists. split; [done|]. simpl.
  split; [|done]. rewrite Hreq.
  by rewrite <- (app_assoc (requests w) [call]).
Qed.

(** X16. Overlapping submissions: nothing holds a second submission
    back while a first one is in flight; both requests are made, and the
    first settlement, fulfilled or rejected, already puts [loading] back
    to false and [progress] to 0 although one request is still
    unsettled. *)
Theorem overlapping_submissions rid1 custom1 rid2 custom2 o w :
  ∃ w' call1 call2,
    run recordToFormData
        [Submit rid1 custom1; Submit rid2 custom2; Settle o] w = Some w'
    ∧ requests w' = requests w ++ [call1; call2]
    ∧ call_resourceId call1 = rid1
    ∧ call_resourceId call2 = rid2
    ∧ loading (hook w') = false
    ∧ progress (hook w') = Num 0.
Proof.
  simpl.
  destruct (handleSubmit_call rid1 custom1 w) as (call1 & -> & Hc1).
  destruct (handleSubmit_call rid2 custom2
              (call_api call1 (setLoading true w))) as (call2 & -> & Hc2).
  eexists. exists call1, call2. simpl. split; [done|].
  destruct o as [response|]; simpl;
    [unfold onFulfilled; destruct (notice response); simpl|];
    (split; [by rewrite <- app_assoc | by repeat split]).
Qed.

Lemma overlay_get (custom : Obj.t string) : ∀ (base : FormData) k,
  NoDup (Obj.keys custom) →
  Obj.get k (foldl (λ fd kv, Obj.set kv.1 kv.2 fd) base custom)
  = match Obj.get k custom with
    | Some v => Some v
    | None => Obj.get k base
    end.
Proof.
  unfold Obj.keys.
  induction custom as [|[k0 v0] custom IH]; intros base k Hnd; [done|].
  simpl in *. apply NoDup_cons in Hnd as [Hk0 Hnd].
  rewrite IH by done. case_decide as Hk; subst.
  - apply (obj_get_None k0 custom) in Hk0. rewrite Hk0.
    apply obj_get_set_eq.
  - destruct (Obj.get k custom); [done|]. by apply obj_get_set_ne.
Qed.

(** X3. Custom params are laid over the payload: the payload of the
    request holds every custom param under its key, replacing a field of
    the same name, and holds the other fields as the record was encoded. *)
Theorem submit_custom_params_overlay resourceId customParams w :
  NoDup (Obj.keys customParams) →
  ∃ call,
    requests (handleSubmit recordToFormData resourceId customParams w)
    = requests w ++ [call]
    ∧ (∀ k v, Obj.get k customParams = Some v →
              Obj.get k (call_data call) = Some v)
    ∧ (∀ k, Obj.get k customParams = None →
            Obj.get k (call_data call)
            = Obj.get k (recordToFormData (record (hook w)))).
Proof.
  intros Hnd. unfold handleSubmit.
  destruct (truthy_string _); simpl; eexists; (split; [done|]); simpl;
    split; intros k; [intros v Hk| intros Hk | intros v Hk | intros Hk];
    by rewrite overlay_get, Hk.
Qed.

(** X12. What the hook sends out: over any sequence of events, the
    notices handed to the notifier are exactly those of the settlements, in
    order (the fixed error notice per rejection, the notice of the
    response per fulfilment that has one), and the requests made are one
    per submit, added after the earlier ones. *)
Theorem run_effects evs : ∀ w w',
  run recordToFormData evs w = Some w' →
  notices w' = notices w ++ (evs ≫= emitted)
  ∧ ∃ calls, requests w' = requests w ++ calls
             ∧ List.length calls = List.length (filter is_submit evs).
Proof.
  induction evs as [|ev evs IH]; intros w w' Hrun.
  - injection Hrun as <-. rewrite app_nil_r. split; [done|].
    exists []. by rewrite app_nil_r.
  - simpl in Hrun.
    destruct (step recordToFormData ev w) as [w1|] eqn:Hstep; [|done].
    simpl in Hrun. destruct (IH w1 w' Hrun) as (Hn & calls & Hq & Hlen).
    assert (notices w1 = notices w ++ emitted ev
            ∧ ∃ c1, requests w1 = requests w ++ c1
                    ∧ List.length c1 = List.length (filter is_submit [ev]))
      as (Hn1 & c1 & Hq1 & Hl1).
    { assert (∀ w0 : World, notices w0 = notices w0 ++ []
                ∧ ∃ c1, requests w0 = requests w0 ++ c1
                        ∧ List.length c1 = 0) as Hquiet.
      { intros w0. rewrite app_nil_r. split; [done|].
        exists []. by rewrite app_nil_r. }
      destruct ev as [[r|]|t value ir|rid custom|e|[response|]];
        simpl in Hstep.
      - injection Hstep as <-. apply (Hquiet w).
      - injection Hstep as <-. apply (Hquiet w).
      - unfold change in Hstep. simpl in Hstep.
        destruct (handleChange _ _ _ _ _); [|done].
        injection Hstep as <-. apply (Hquiet w).
      - injection Hstep as <-. unfold handleSubmit.
        destruct (truthy_string _); simpl; rewrite app_nil_r;
          (split; [done|]); eexists [_]; by split.
      - injection Hstep as <-. apply (Hquiet w).
      - injection Hstep as <-. unfold onFulfilled, emitted.
        destruct (notice response); simpl.
        + split; [done|]. exists []. by rewrite app_nil_r.
        + apply (Hquiet w).
      - injection Hstep as <-. simpl. split; [done|].
        exists []. by rewrite app_nil_r. }
    split.
    + rewrite Hn, Hn1. simpl. by rewrite <- app_assoc.
    + exists (c1 ++ calls). split.
      * by rewrite Hq, Hq1, <- app_assoc.
      * rewrite length_app, Hlen, Hl1, !filter_cons, filter_nil.
        case_decide; simpl; lia.
Qed.

End SubmissionMore.

Lemma run_effects_witness :
  notices sample_run_result
  = notices (mount (Some saved_record)) ++ (sample_events ≫= emitted)
  ∧ ∃ calls,
      requests sample_run_result
      = requests (mount (Some saved_record)) ++ calls
      ∧ List.length calls = List.length (filter is_submit sample_events).
Proof.
  apply (run_effects sample_formData sample_events
           (mount (Some saved_record)) sample_run_result).
  reflexivity.
Defined.

Lemma submit_custom_params_overlay_witness :
  ∃ call,
    requests (handleSubmit sample_formData "users" [("locale", "en")]
                (mount (Some saved_record)))
    = requests (mount (Some saved_record)) ++ [call]
    ∧ (∀ k v, Obj.get k [("locale", "en")] = Some v →
              Obj.get k (call_data call) = Some v)
    ∧ (∀ k, Obj.get k [("locale", "en")] = None →
            Obj.get k (call_data call)
            = Obj.get k (sample_formData
                           (record (hook (mount (Some saved_record)))))).
Proof.
  apply (submit_custom_params_overlay sample_formData "users"
           [("locale", "en")] (mount (Some saved_record))).
  unfold Obj.keys. simpl. apply NoDup_singleton.
Defined.

(** ** Events that install no record *)

Lemma step_local recordToFormData ev w :
  is_Some (params (record (hook w))) →
  local_event ev = true →
  ∃ w', step recordToFormData ev w = Some w'
        ∧ errors (record (hook w')) = errors (record (hook w))
        ∧ id (record (hook w')) = id (record (hook w))
        ∧ is_Some (params (record (hook w'))).
Proof.
  intros [flat Hp] Hev.
  destruct ev as [[r|]|t value ir|rid custom|e|[response|]];
    simpl in *; try done.
  - eexists. by eauto.
  - apply negb_true_iff in Hev. unfold change. simpl.
    destruct (applyFieldEdit_Some (next_addr w) (key_of t) value ir
                (record (hook w)) flat Hp)
      as (r' & Hr' & Hid & Herr & Hpar & _).
    assert (handleChange (next_addr w) t value ir (record (hook w)) = Some r')
      as ->.
    { unfold handleChange. destruct t; [done|]. by rewrite Hev. }
    simpl. eexists. by eauto.
  - eexists. split; [done|].
    rewrite (proj1 (handleSubmit_frame recordToFormData rid custom w)).
    by eauto.
  - eexists. by eauto.
  - eexists. by eauto.
Qed.

(** X13. Errors and id only come from outside: over any sequence of
    field edits, submissions, upload events and rejections, starting from a
    record with [params], the run goes through and the [errors] and the
    [id] of the exposed record are those of the start. *)
Theorem local_events_keep_errors_and_id recordToFormData evs : ∀ w,
  is_Some (params (record (hook w))) →
  forallb local_event evs = true →
  ∃ w', run recordToFormData evs w = Some w'
        ∧ errors (record (hook w')) = errors (record (hook w))
        ∧ id (record (hook w')) = id (record (hook w)).
Proof.
  induction evs as [|ev evs IH]; intros w Hp Hevs; [by exists w|].
  simpl in Hevs. apply andb_prop in Hevs as [Hev Hevs].
  destruct (step_local recordToFormData ev w Hp Hev)
    as (w1 & Hstep & Herr & Hid & Hp1).
  destruct (IH w1 Hp1 Hevs) as (w' & Hrun & Herr' & Hid').
  exists w'. simpl. rewrite Hstep. simpl.
  split; [done|]. split; congruence.
Qed.

Lemma local_events_keep_errors_and_id_witness :
  ∃ w', run sample_formData sample_events (mount (Some saved_record))
        = Some w'
        ∧ errors (record (hook w'))
          = errors (record (hook (mount (Some saved_record))))
        ∧ id (record (hook w'))
          = id (record (hook (mount (Some saved_record)))).
Proof.
  apply (local_events_keep_errors_and_id sample_formData sample_events
           (mount (Some saved_record))).
  - by eexists.
  - reflexivity.
Defined.

(** ** Mounting *)

(** X14. Mounting on a record that has its three mappings: the state of
    the first render already is that record, so the effect that installs
    the initial record changes nothing; the hook starts idle, with no
    progress, no notice and no request. Mounted without a record, it
    exposes the record with no id and three empty mappings. *)
Theorem mount_exposes_initial_record r :
  shaped r = true →
  initialState 0 (Some r) = r
  ∧ mount (Some r) = first_render (Some r)
  ∧ record (hook (mount (Some r))) = r
  ∧ loading (hook (mount (Some r))) = false
  ∧ progress (hook (mount (Some r))) = Num 0
  ∧ notices (mount (Some r)) = []
  ∧ requests (mount (Some r)) = []
  ∧ record (hook (mount None))
    = {| id := None; params := Some []; errors := Some ∅;
         populated := Some (mkRef 0 ∅) |}.
Proof.
  intros Hs. unfold shaped in Hs.
  rewrite !andb_true_iff, !bool_decide_eq_true in Hs.
  destruct Hs as [[[p Hp] [e He]] [po Hpo]].
  destruct r as [i rp re rpo]. simpl in *. subst.
  by repeat split.
Qed.

Lemma mount_exposes_initial_record_witness :
  initialState 0 (Some saved_record) = saved_record
  ∧ mount (Some saved_record) = first_render (Some saved_record)
  ∧ record (hook (mount (Some saved_record))) = saved_record
  ∧ loading (hook (mount (Some saved_record))) = false
  ∧ progress (hook (mount (Some saved_record))) = Num 0
  ∧ notices (mount (Some saved_record)) = []
  ∧ requests (mount (Some saved_record)) = []
  ∧ record (hook (mount None))
    = {| id := None; params := Some []; errors := Some ∅;
         populated := Some (mkRef 0 ∅) |}.
Proof. apply (mount_exposes_initial_record saved_record). reflexivity. Defined.

Lemma create_then_update_witness :
  ∃ w' call data headers,
    run sample_formData
        (submission "users" [] [] (Fulfilled sample_response)
         ++ [Submit "users" []]) (mount None)
    = Some w'
    ∧ requests w'
      = requests (mount None)
        ++ [call; recordAction "users" "7" "edit" data headers]
    ∧ loading (hook w') = true.
Proof.
  apply (create_then_update sample_formData "users" [] [] []
           sample_response "7" (mount None)).
  - reflexivity.
  - discriminate.
Defined.

Lemma clear_dotted_path_keeps_params_witness :
  ∃ r', handleChange 4 (TPath "address.city") (Leaf SUndefined) None
                     (mkRecordJSON None
                        (Some [("address.city", SStr "Oslo")]) (Some ∅) None)
        = Some r'
        ∧ params r'
          = Some (toFlat (toNested [("address.city", SStr "Oslo")])).
Proof.
  apply (clear_dotted_path_keeps_params 4 "address.city" (Leaf SUndefined)
           None
           (mkRecordJSON None (Some [("address.city", SStr "Oslo")])
                         (Some ∅) None)).
  - reflexivity.
  - reflexivity.
  - reflexivity.
Defined.

Lemma edit_then_clear_one_segment_path_witness :
  ∃ r1 r2 p2 p0,
    handleChange 4 (TPath "title") (Leaf (SStr "Dr")) None
                 (mkRecordJSON None (Some (toFlat sample_nested)) (Some ∅)
                               None) = Some r1
    ∧ handleChange 5 (TPath "title") (Leaf SUndefined) None r1 = Some r2
    ∧ params r2 = Some p2
    ∧ params (mkRecordJSON None (Some (toFlat sample_nested)) (Some ∅) None)
      = Some p0
    ∧ Obj.same_props p2 p0
    ∧ populated r2
      = populated (mkRecordJSON None (Some (toFlat sample_nested)) (Some ∅)
                                None).
Proof.
  apply (edit_then_clear_one_segment_path 4 5 "title" (SStr "Dr")
           (mkRecordJSON None (Some (toFlat sample_nested)) (Some ∅) None)
           sample_nested); reflexivity.
Defined.
